(** * moon7-bits: bitfield primitives, named bit collections, bit analysis

    A shallow embedding of the TypeScript sources [src/type.ts],
    [src/mask.ts], [src/named.ts] and [src/util.ts] (bit analysis,
    string rendering and the single-bit operations).

    JavaScript numbers that the library manipulates are integers well
    inside the exactly representable range of a double, so a [number] is
    modelled as a [Z].  The bitwise operators of the language coerce
    their operands to 32-bit integers ([ToInt32], [ToUint32]) and the
    signedness of every result is written out: [&], [|], [^], [~] and
    [<<] produce a signed 32-bit integer, [>>>] an unsigned one. *)

From Stdlib Require Import ZArith Lia Bool String Ascii List.
From stdpp Require Import gmap strings.

Local Open Scope Z_scope.

(** ** Dynamically typed values *)

(** What a property read [result[name]] can produce at run time: a
    number, [undefined] for an absent key, the closure stored under
    [mask], or a member inherited from [Object.prototype]. *)
Inductive Value : Type :=
  | VUndefined
  | VNumber (n : Z)
  | VMaskFn
  | VBuiltin (name : string).

Coercion VNumber : Z >-> Value.

#[global] Instance Value_eq_dec : EqDecision Value.
Proof. solve_decision. Defined.

(** ** The 32-bit integer operators of the language *)

Module Js.

(** [ToNumber] followed by the "NaN becomes +0" step shared by
    [ToInt32] and [ToUint32]: [undefined], functions and plain objects
    convert to NaN. *)
Definition ToIntegerOrZero (v : Value) : Z :=
  match v with
  | VNumber n => n
  | VUndefined | VMaskFn | VBuiltin _ => 0
  end.

Definition ToUint32 (v : Value) : Z := ToIntegerOrZero v mod 2 ^ 32.

Definition ToInt32 (v : Value) : Z :=
  let u := ToUint32 v in
  if 2 ^ 31 <=? u then u - 2 ^ 32 else u.

(** [a & b] *)
Definition and (a b : Value) : Z := Z.land (ToInt32 a) (ToInt32 b).
(** [a | b] *)
Definition or (a b : Value) : Z := Z.lor (ToInt32 a) (ToInt32 b).
(** [a ^ b] *)
Definition xor (a b : Value) : Z := Z.lxor (ToInt32 a) (ToInt32 b).
(** [~a] *)
Definition not (a : Value) : Z := Z.lnot (ToInt32 a).
(** [a << n]: the count is taken modulo 32, the result is signed. *)
Definition shl (a n : Value) : Z :=
  ToInt32 (Z.shiftl (ToInt32 a) (ToUint32 n mod 32)).
(** [a >>> n]: the count is taken modulo 32, the result is unsigned. *)
Definition ushr (a n : Value) : Z :=
  Z.shiftr (ToUint32 a) (ToUint32 n mod 32).

End Js.

Declare Scope js_scope.
Delimit Scope js_scope with js.
Notation "a .& b" := (Js.and a b) (at level 40, left associativity) : js_scope.
Notation "a .| b" := (Js.or a b) (at level 50, left associativity) : js_scope.
Notation "a .^ b" := (Js.xor a b) (at level 45, left associativity) : js_scope.
Notation ".~ a" := (Js.not a) (at level 35, right associativity) : js_scope.
Notation "a .<< n" := (Js.shl a n) (at level 38, left associativity) : js_scope.
Notation "a .>>> n" := (Js.ushr a n) (at level 38, left associativity) : js_scope.
Local Open Scope js_scope.

(** ** [src/type.ts] *)

(** The bit width of a bitfield. *)
Definition W : Z := 32.

(** [type BitField = number], read as an unsigned [W]-bit integer. *)
Definition BitField (bits : Z) : Prop := 0 <= bits < 2 ^ W.

(** [export const ALL: BitField = ~0 >>> 0;] *)
Definition ALL : Z := (.~ 0) .>>> 0.

(** [export const NONE: BitField = 0;] *)
Definition NONE : Z := 0.

(** ** [src/mask.ts] *)

(** [return (1 << i) >>> 0;]  The parameter is declared [number]; the
    accessor of a named collection passes whatever the property read
    returned, so the run-time parameter is a [Value]. *)
Definition bitMask (i : Value) : Z := (1 .<< i) .>>> 0.

(** [return (bits & mask) !== 0;] *)
Definition checkMask (bits mask : Z) : bool := negb ((bits .& mask) =? 0).

(** [return (bits | mask) >>> 0;] *)
Definition applyMask (bits mask : Z) : Z := (bits .| mask) .>>> 0.

(** [return bits & ~mask;] *)
Definition clearMask (bits mask : Z) : Z := bits .& (.~ mask).

(** [return (bits ^ mask) >>> 0;] *)
Definition toggleMask (bits mask : Z) : Z := (bits .^ mask) .>>> 0.

(** ** Single-bit operations *)

Definition getBit (bits index : Z) : bool := checkMask bits (bitMask index).

Definition setBitOn (bits index : Z) : Z := applyMask bits (bitMask index).

Definition setBitOff (bits index : Z) : Z := clearMask bits (bitMask index).

Definition toggleBit (bits index : Z) : Z := toggleMask bits (bitMask index).

(** [return value ? setBitOn(bits, index) : setBitOff(bits, index);] *)
Definition setBit (bits index : Z) (value : bool) : Z :=
  if value then setBitOn bits index else setBitOff bits index.

(** ** Objects *)

(** An ordinary object is the finite map of its own properties; every
    object the library creates has [Object.prototype] as prototype. *)
Abbreviation Obj := (gmap string Value).

Module Object.

(** The members every ordinary object inherits. *)
Definition prototype_names : list string :=
  [ "constructor"; "hasOwnProperty"; "isPrototypeOf";
    "propertyIsEnumerable"; "toLocaleString"; "toString"; "valueOf";
    "__proto__"; "__defineGetter__"; "__defineSetter__";
    "__lookupGetter__"; "__lookupSetter__" ]%string.

Definition prototype (key : string) : Value :=
  if bool_decide (key ∈ prototype_names) then VBuiltin key else VUndefined.

(** [o[key]]: the own property, else the inherited one, else
    [undefined]. *)
Definition get (o : Obj) (key : string) : Value :=
  match o !! key with
  | Some v => v
  | None => prototype key
  end.

(** [o[key] = n] for a number [n]: an own property is created or
    overwritten, except that without an own property the key
    [__proto__] reaches the inherited setter, which ignores a value
    that is not an object. *)
Definition set_number (o : Obj) (key : string) (n : Z) : Obj :=
  match o !! key with
  | Some _ => <[key := VNumber n]> o
  | None =>
      if bool_decide (key = "__proto__"%string) then o
      else <[key := VNumber n]> o
  end.

(** [Object.keys(o)] as a set. *)
Definition keys (o : Obj) : gset string := dom o.

End Object.

(** ** [src/named.ts] *)

(** The closure [(name) => bitMask(result[name])], applied to the object
    [result] it has captured. *)
Definition mask_closure (result : Obj) (name : string) : Z :=
  bitMask (Object.get result name).

(** The call [result.mask(name)]: the member [mask] is read and, when it
    is the closure, applied; calling anything else throws. *)
Definition mask (result : Obj) (name : string) : option Z :=
  match Object.get result "mask" with
  | VMaskFn => Some (mask_closure result name)
  | _ => None
  end.

(** [const result = { ...definition }; result.mask = (name) => ...;]
    The spread copies every own property of [definition] as an own
    property of the fresh object, whatever its key; the assignment then
    creates or overwrites the own property [mask]. *)
Definition defineBitFlags (definition : gmap string Z) : Obj :=
  <["mask"%string := VMaskFn]> (VNumber <$> definition).

(** [names.forEach((name, index) => (result[name] = index));] from
    [index] on. *)
Fixpoint forEach_assign (names : list string) (index : Z) (result : Obj) : Obj :=
  match names with
  | [] => result
  | name :: rest =>
      forEach_assign rest (index + 1) (Object.set_number result name index)
  end.

(** [const result = {}; names.forEach(...); result.mask = (name) => ...;]
    The accessor is assigned last, on the object that holds the
    positions. *)
Definition defineBitEnum (names : list string) : Obj :=
  <["mask"%string := VMaskFn]> (forEach_assign names 0 ∅).

(** ** [src/util.ts] *)

(** [Number.prototype.toString(2)] on an integer: most significant digit
    first, no leading zero, a minus sign for a negative number. *)
Fixpoint binary_digits (p : positive) (acc : string) : string :=
  match p with
  | xH => String "1" acc
  | xO p' => binary_digits p' (String "0" acc)
  | xI p' => binary_digits p' (String "1" acc)
  end.

Definition Number_toString_2 (n : Z) : string :=
  match n with
  | Z0 => "0"
  | Zpos p => binary_digits p EmptyString
  | Zneg p => String "-" (binary_digits p EmptyString)
  end.

Fixpoint string_repeat (s : string) (n : nat) : string :=
  match n with
  | O => EmptyString
  | S n' => String.append s (string_repeat s n')
  end.

(** [String.prototype.padStart(maxLength, fillString)]: a string that is
    already long enough is returned as it is. *)
Definition padStart (s : string) (maxLength : Z) (fillString : string) : string :=
  let intMaxLength := Z.to_nat maxLength in
  let stringLength := String.length s in
  if (intMaxLength <=? stringLength)%nat then s
  else if bool_decide (fillString = EmptyString) then s
  else
    let fillLen := (intMaxLength - stringLength)%nat in
    String.append
      (String.substring 0 fillLen (string_repeat fillString fillLen)) s.

(** [return bits.toString(2).padStart(length, "0");] with the default
    [length = 32] for an omitted argument. *)
Definition toBinaryString (bits : Z) (length : option Z) : string :=
  padStart (Number_toString_2 bits) (default 32 length) "0".

(** One turn of the loop of [countBits] on the pair [(count, value)]:
    [count += value & 1; value >>>= 1;] *)
Definition countBits_body (s : Z * Z) : Z * Z :=
  (fst s + (snd s .& 1), snd s .>>> 1).

(** [while (value) { ... } return count;] with a bound on the number of
    turns; [None] when the bound is exhausted before [value] is zero. *)
Fixpoint countBits_loop (fuel : nat) (s : Z * Z) : option Z :=
  if snd s =? 0 then Some (fst s)
  else
    match fuel with
    | O => None
    | S fuel' => countBits_loop fuel' (countBits_body s)
    end.

(** [let count = 0; let value = bits; while ...]  The loop is given [W]
    turns, which [countBits_fuel_enough] shows to be enough for every
    integer argument. *)
Definition countBits (bits : Z) : option Z := countBits_loop 32 (0, bits).

(** [return bits !== 0 && (bits & (bits - 1)) === 0;] *)
Definition isSingleBit (bits : Z) : bool :=
  negb (bits =? 0) && ((bits .& (bits - 1)) =? 0).

(** ** Reference notions the properties are stated against *)

(** The number of positions below [n] whose bit is set in [bits]. *)
Fixpoint set_bits_below (n : nat) (bits : Z) : Z :=
  match n with
  | O => 0
  | S n' => Z.b2z (Z.testbit bits (Z.of_nat n')) + set_bits_below n' bits
  end.

(** The population count of a [W]-bit value. *)
Definition popcount (bits : Z) : Z := set_bits_below 32 bits.

(** The number a string of binary digits denotes. *)
Fixpoint binary_value_from (acc : Z) (s : string) : Z :=
  match s with
  | EmptyString => acc
  | String c s' =>
      binary_value_from (2 * acc + (if Ascii.eqb c "1" then 1 else 0)) s'
  end.

Definition binary_value (s : string) : Z := binary_value_from 0 s.

(** The number of binary digits of a non-negative integer. *)
Definition digit_count (n : Z) : nat := String.length (Number_toString_2 n).

(** ** [toFormattedBinaryString] of [src/util.ts] *)

(** The characters [.] refuses in a regular expression without the [s]
    flag, among the ASCII ones: line feed and carriage return. *)
Definition is_line_terminator (c : ascii) : bool :=
  Ascii.eqb c "010" || Ascii.eqb c "013".

(** A run that has been read is kept when it is not empty. *)
Definition close_run (r : string * list string) : list string :=
  match fst r with
  | EmptyString => snd r
  | run => run :: snd r
  end.

(** Scanning for [/.{1,n}/g]: the rest of the run being read, which has
    room for [room] more characters, and the runs after it.  A run ends
    when it is full, at a line terminator or with the string. *)
Fixpoint scan_runs (n room : nat) (s : string) : string * list string :=
  match s with
  | EmptyString => (EmptyString, [])
  | String c s' =>
      if is_line_terminator c then (EmptyString, close_run (scan_runs n n s'))
      else
        match room with
        | S (S _ as room') =>
            let r := scan_runs n room' s' in (String c (fst r), snd r)
        | _ => (String c EmptyString, close_run (scan_runs n n s'))
        end
  end.

(** [s.match(/.{1,n}/g)]: the array of matches, [null] when there is
    none. *)
Definition match_runs (n : nat) (s : string) : option (list string) :=
  match close_run (scan_runs n n s) with
  | [] => None
  | runs => Some runs
  end.

(** [Array.prototype.join(separator)] on strings. *)
Fixpoint join (separator : string) (items : list string) : string :=
  match items with
  | [] => EmptyString
  | [item] => item
  | item :: rest => String.append item (String.append separator (join separator rest))
  end.

(** [x.match(/.{1,4}/g)?.join(" ")]; the [undefined] of a failed match
    is joined as the empty string by the enclosing [join]. *)
Definition group_quads (x : string) : string :=
  match match_runs 4 x with
  | Some quads => join " " quads
  | None => EmptyString
  end.

(** [str.match(/.{1,8}/g)?.map(x => ...).join(" - ") ?? ""] *)
Definition group_digits (str : string) : string :=
  match match_runs 8 str with
  | Some octets => join " - " (map group_quads octets)
  | None => EmptyString
  end.

(** [const str = toBinaryString(bits, length); return (...);] *)
Definition toFormattedBinaryString (bits : Z) (length : option Z) : string :=
  group_digits (toBinaryString bits length).

(** ** Further reference notions *)

(** A string without line terminators. *)
Fixpoint one_line (s : string) : bool :=
  match s with
  | EmptyString => true
  | String c s' => negb (is_line_terminator c) && one_line s'
  end.

(** A string of binary digits. *)
Fixpoint binary_string (s : string) : bool :=
  match s with
  | EmptyString => true
  | String c s' => (Ascii.eqb c "0" || Ascii.eqb c "1") && binary_string s'
  end.

(** The string without the characters the grouping inserts: spaces and
    dashes. *)
Fixpoint strip_separators (s : string) : string :=
  match s with
  | EmptyString => EmptyString
  | String c s' =>
      if Ascii.eqb c " " || Ascii.eqb c "-" then strip_separators s'
      else String c (strip_separators s')
  end.

(** The strings of a list one after the other. *)
Definition flatten (items : list string) : string :=
  fold_right String.append EmptyString items.

(** The runs [/.{1,n}/g] finds in a string. *)
Definition runs (n : nat) (s : string) : list string :=
  close_run (scan_runs n n s).

(** ** Sample evaluations *)

Example defineBitFlags_ADMIN :
  mask (defineBitFlags {[ "READ" := 0; "WRITE" := 1; "DELETE" := 2; "ADMIN" := 5 ]}%string) "ADMIN"
  = Some 32.
Proof. vm_compute. reflexivity. Qed.

Example defineBitEnum_ADMIN :
  let roles := defineBitEnum ["GUEST"; "MEMBER"; "MODERATOR"; "ADMIN"]%string in
  Object.get roles "ADMIN" = VNumber 3 /\ mask roles "ADMIN" = Some 8.
Proof. vm_compute. split; reflexivity. Qed.

Example toBinaryString_5_8 : toBinaryString 5 (Some 8) = "00000101"%string.
Proof. reflexivity. Qed.

Example toBinaryString_5 :
  toBinaryString 5 None = "00000000000000000000000000000101"%string.
Proof. reflexivity. Qed.

Example countBits_21 : countBits 21 = Some 3.
Proof. reflexivity. Qed.

Example countBits_ffffffff : countBits 4294967295 = Some 32.
Proof. reflexivity. Qed.

Example isSingleBit_8_9 : isSingleBit 8 = true /\ isSingleBit 9 = false.
Proof. split; reflexivity. Qed.

Example ALL_value : ALL = 4294967295.
Proof. reflexivity. Qed.

Example bitMask_31 : bitMask 31 = 2147483648.
Proof. reflexivity. Qed.

Example clearMask_doc : clearMask 5 4 = 1.
Proof. reflexivity. Qed.

Example toFormattedBinaryString_5_8 :
  toFormattedBinaryString 5 (Some 8) = "0000 0101"%string.
Proof. reflexivity. Qed.

Example toFormattedBinaryString_16 :
  toFormattedBinaryString 43690 (Some 16) = "1010 1010 - 1010 1010"%string.
Proof. reflexivity. Qed.

Example toFormattedBinaryString_32 :
  toFormattedBinaryString 4037734570 None
  = "1111 0000 - 1010 1010 - 1111 0000 - 1010 1010"%string.
Proof. reflexivity. Qed.

Example toFormattedBinaryString_partial :
  toFormattedBinaryString 5 (Some 6) = "0001 01"%string.
Proof. reflexivity. Qed.

(** ** Width and sign lemmas for the 32-bit operators *)

Section Int32Facts.

Lemma ToUint32_number (n : Z) : Js.ToUint32 n = n mod 2 ^ 32.
Proof. reflexivity. Qed.

Lemma ToUint32_range (v : Value) : 0 <= Js.ToUint32 v < 2 ^ 32.
Proof. unfold Js.ToUint32. apply Z.mod_pos_bound. lia. Qed.

Lemma ToUint32_small (n : Z) : 0 <= n < 2 ^ 32 -> Js.ToUint32 n = n.
Proof. intros H. unfold Js.ToUint32. simpl. apply Z.mod_small. exact H. Qed.

Lemma ToInt32_range (v : Value) : - 2 ^ 31 <= Js.ToInt32 v < 2 ^ 31.
Proof.
  unfold Js.ToInt32. pose proof (ToUint32_range v) as Hu.
  destruct (Z.leb_spec (2 ^ 31) (Js.ToUint32 v)); lia.
Qed.

Lemma ToInt32_mod (n : Z) : Js.ToInt32 n mod 2 ^ 32 = n mod 2 ^ 32.
Proof.
  unfold Js.ToInt32. rewrite ToUint32_number.
  destruct (Z.leb_spec (2 ^ 31) (n mod 2 ^ 32)).
  - replace (n mod 2 ^ 32 - 2 ^ 32) with (n mod 2 ^ 32 + (-1) * 2 ^ 32) by lia.
    rewrite Z.mod_add by lia. apply Z.mod_mod. lia.
  - apply Z.mod_mod. lia.
Qed.

Lemma ToInt32_small (n : Z) : 0 <= n < 2 ^ 31 -> Js.ToInt32 n = n.
Proof.
  intros H. unfold Js.ToInt32. rewrite ToUint32_small by lia.
  destruct (Z.leb_spec (2 ^ 31) n); lia.
Qed.

Lemma ToInt32_high (n : Z) :
  2 ^ 31 <= n < 2 ^ 32 -> Js.ToInt32 n = n - 2 ^ 32.
Proof.
  intros H. unfold Js.ToInt32. rewrite ToUint32_small by lia.
  destruct (Z.leb_spec (2 ^ 31) n); lia.
Qed.

(** The low 32 bits survive both coercions. *)
Lemma testbit_mod32 (n i : Z) :
  0 <= i < 32 -> Z.testbit (n mod 2 ^ 32) i = Z.testbit n i.
Proof. intros H. apply Z.mod_pow2_bits_low. lia. Qed.

Lemma testbit_ToInt32 (n i : Z) :
  0 <= i < 32 -> Z.testbit (Js.ToInt32 n) i = Z.testbit n i.
Proof.
  intros H. rewrite <- (testbit_mod32 (Js.ToInt32 n)) by exact H.
  rewrite ToInt32_mod. apply testbit_mod32. exact H.
Qed.

(** Two integers with the same low 32 bits have the same unsigned
    reading. *)
Lemma mod32_ext (a b : Z) :
  (forall i, 0 <= i < 32 -> Z.testbit a i = Z.testbit b i) ->
  a mod 2 ^ 32 = b mod 2 ^ 32.
Proof.
  intros H. apply Z.bits_inj'. intros i Hi.
  destruct (Z.ltb_spec i 32) as [Hlt | Hge].
  - rewrite !testbit_mod32 by lia. apply H. lia.
  - rewrite !Z.mod_pow2_bits_high by lia. reflexivity.
Qed.

Lemma ushr_0 (a : Z) : a .>>> 0 = a mod 2 ^ 32.
Proof. unfold Js.ushr. rewrite ToUint32_number. apply Z.shiftr_0_r. Qed.

Lemma testbit_pow2 (i j : Z) :
  0 <= i -> 0 <= j -> Z.testbit (2 ^ i) j = (j =? i).
Proof.
  intros Hi Hj. destruct (Z.eqb_spec j i) as [-> | Hne].
  - apply Z.pow2_bits_true. exact Hi.
  - apply Z.pow2_bits_false. congruence.
Qed.

(** Inside the width, [bitMask] is the power of two. *)
Lemma bitMask_pow2 (i : Z) : 0 <= i < 32 -> bitMask i = 2 ^ i.
Proof.
  intros Hi. unfold bitMask. rewrite ushr_0. unfold Js.shl.
  rewrite ToInt32_mod, ToUint32_number.
  rewrite (ToInt32_small 1) by lia.
  rewrite (Z.mod_small i (2 ^ 32)) by lia.
  rewrite (Z.mod_small i 32) by lia.
  rewrite Z.shiftl_1_l. apply Z.mod_small.
  split; [apply Z.pow_nonneg; lia | apply Z.pow_lt_mono_r; lia].
Qed.

Lemma bitMask_BitField (i : Z) : 0 <= i < 32 -> BitField (bitMask i).
Proof.
  intros Hi. rewrite bitMask_pow2 by exact Hi. unfold BitField, W.
  split; [apply Z.pow_nonneg; lia | apply Z.pow_lt_mono_r; lia].
Qed.

(** Above position 31 a signed 32-bit integer repeats its sign bit. *)
Lemma log2_below (x : Z) : 0 <= x < 2 ^ 31 -> Z.log2 x < 31.
Proof.
  intros Hx. destruct (Z.eq_dec x 0) as [-> | Hx0]; [simpl; lia |].
  apply Z.log2_lt_pow2; lia.
Qed.

Lemma testbit_sign_extend (x j : Z) :
  - 2 ^ 31 <= x < 2 ^ 31 -> 32 <= j -> Z.testbit x j = Z.testbit x 31.
Proof.
  intros Hx Hj. destruct (Z.neg_nonneg_cases x) as [Hneg | Hpos].
  - assert (Hl : Z.log2 (Z.pred (- x)) < 31) by (apply log2_below; lia).
    rewrite !Z.bits_above_log2_neg by lia. reflexivity.
  - assert (Hl : Z.log2 x < 31) by (apply log2_below; lia).
    rewrite !Z.bits_above_log2 by lia. reflexivity.
Qed.

Lemma testbit_ToInt32_high (n j : Z) :
  32 <= j -> Z.testbit (Js.ToInt32 n) j = Z.testbit n 31.
Proof.
  intros Hj. rewrite (testbit_sign_extend _ j (ToInt32_range n) Hj).
  apply testbit_ToInt32. lia.
Qed.

Lemma testbit_31_high (n : Z) :
  2 ^ 31 <= n < 2 ^ 32 -> Z.testbit n 31 = true.
Proof.
  intros Hn. apply Z.testbit_true; [lia |].
  assert (Hq : n / 2 ^ 31 = 1).
  { symmetry. apply (Z.div_unique n (2 ^ 31) 1 (n - 2 ^ 31)); lia. }
  rewrite Hq. reflexivity.
Qed.

End Int32Facts.

(** ** Mask algebra *)

Section MaskAlgebra.

Lemma BitField_ALL : BitField ALL.
Proof. unfold BitField, W. change ALL with 4294967295. lia. Qed.

Lemma BitField_mod (n : Z) : BitField (n mod 2 ^ 32).
Proof. unfold BitField, W. apply Z.mod_pos_bound. lia. Qed.

Lemma applyMask_BitField (bits mask : Z) : BitField (applyMask bits mask).
Proof. unfold applyMask. rewrite ushr_0. apply BitField_mod. Qed.

Lemma toggleMask_BitField (bits mask : Z) : BitField (toggleMask bits mask).
Proof. unfold toggleMask. rewrite ushr_0. apply BitField_mod. Qed.

(** Bit by bit, each operation does what its name says on the low 32
    positions. *)
Lemma testbit_applyMask (bits mask i : Z) :
  0 <= i < 32 ->
  Z.testbit (applyMask bits mask) i = Z.testbit bits i || Z.testbit mask i.
Proof.
  intros Hi. unfold applyMask, Js.or. rewrite ushr_0.
  rewrite testbit_mod32, Z.lor_spec, !testbit_ToInt32 by exact Hi.
  reflexivity.
Qed.

Lemma testbit_toggleMask (bits mask i : Z) :
  0 <= i < 32 ->
  Z.testbit (toggleMask bits mask) i = xorb (Z.testbit bits i) (Z.testbit mask i).
Proof.
  intros Hi. unfold toggleMask, Js.xor. rewrite ushr_0.
  rewrite testbit_mod32, Z.lxor_spec, !testbit_ToInt32 by exact Hi.
  reflexivity.
Qed.

Lemma testbit_clearMask (bits mask i : Z) :
  0 <= i < 32 ->
  Z.testbit (clearMask bits mask) i = Z.testbit bits i && negb (Z.testbit mask i).
Proof.
  intros Hi. unfold clearMask, Js.and, Js.not.
  rewrite Z.land_spec, !testbit_ToInt32 by exact Hi.
  rewrite Z.lnot_spec by lia. rewrite testbit_ToInt32 by exact Hi.
  reflexivity.
Qed.

Lemma testbit_clearMask_high (bits mask j : Z) :
  32 <= j ->
  Z.testbit (clearMask bits mask) j
  = Z.testbit bits 31 && negb (Z.testbit mask 31).
Proof.
  intros Hj. unfold clearMask, Js.and, Js.not.
  rewrite Z.land_spec, !testbit_ToInt32_high by exact Hj.
  rewrite Z.lnot_spec by lia. rewrite testbit_ToInt32 by lia.
  reflexivity.
Qed.

(** A bitfield is determined by its low 32 bits. *)
Lemma BitField_ext (a b : Z) :
  BitField a -> BitField b ->
  (forall i, 0 <= i < 32 -> Z.testbit a i = Z.testbit b i) -> a = b.
Proof.
  unfold BitField, W. intros Ha Hb H.
  rewrite <- (Z.mod_small a (2 ^ 32)), <- (Z.mod_small b (2 ^ 32)) by lia.
  apply mod32_ext. exact H.
Qed.

(** The unsigned reading of [clearMask] is [bits AND (NOT mask)]; what
    the function returns is the signed reading of that pattern. *)
Lemma clearMask_low32 (bits mask : Z) :
  clearMask bits mask mod 2 ^ 32 = Z.land bits (Z.lnot mask) mod 2 ^ 32.
Proof.
  apply mod32_ext. intros i Hi.
  rewrite testbit_clearMask, Z.land_spec, Z.lnot_spec by lia. reflexivity.
Qed.

Lemma clearMask_ALL (bits : Z) : clearMask bits ALL = NONE.
Proof.
  unfold clearMask, Js.and, Js.not. change (Js.ToInt32 ALL) with (-1).
  change (Z.lnot (-1)) with 0. change (Js.ToInt32 0) with 0.
  apply Z.land_0_r.
Qed.

Lemma clearMask_NONE (bits : Z) : clearMask bits NONE = Js.ToInt32 bits.
Proof.
  unfold clearMask, Js.and, Js.not, NONE. change (Js.ToInt32 0) with 0.
  change (Z.lnot 0) with (-1). change (Js.ToInt32 (-1)) with (-1).
  apply Z.land_m1_r.
Qed.

Lemma clearMask_NONE_low (bits : Z) :
  0 <= bits < 2 ^ 31 -> clearMask bits NONE = bits.
Proof. intros H. rewrite clearMask_NONE. apply ToInt32_small. exact H. Qed.

Lemma clearMask_NONE_high (bits : Z) :
  2 ^ 31 <= bits < 2 ^ 32 -> clearMask bits NONE = bits - 2 ^ 32.
Proof. intros H. rewrite clearMask_NONE. apply ToInt32_high. exact H. Qed.

Lemma getBit_testbit (bits i : Z) :
  0 <= i < 32 -> getBit bits i = Z.testbit bits i.
Proof.
  intros Hi. unfold getBit, checkMask, Js.and.
  rewrite bitMask_pow2 by exact Hi.
  destruct (Z.testbit bits i) eqn:Hb.
  - apply negb_true_iff, Z.eqb_neq. intros H0.
    assert (Hbit : Z.testbit (Z.land (Js.ToInt32 bits) (Js.ToInt32 (2 ^ i))) i = true).
    { rewrite Z.land_spec, !testbit_ToInt32 by exact Hi.
      rewrite Hb, testbit_pow2, Z.eqb_refl by lia. reflexivity. }
    rewrite H0, Z.bits_0 in Hbit. discriminate.
  - apply negb_false_iff, Z.eqb_eq.
    pose proof (ToInt32_range bits) as Hr1.
    pose proof (ToInt32_range (2 ^ i)) as Hr2.
    apply Z.bits_inj'. intros j Hj. rewrite Z.bits_0, Z.land_spec.
    destruct (Z.ltb_spec j 32) as [Hlt | Hge].
    + rewrite !testbit_ToInt32 by lia. rewrite testbit_pow2 by lia.
      destruct (Z.eqb_spec j i) as [-> | Hne].
      * rewrite Hb. reflexivity.
      * apply andb_false_r.
    + (* above the width both operands repeat their sign bit *)
      assert (Hs := fun x Hx => testbit_sign_extend x j Hx Hge).
      rewrite (Hs _ Hr1), (Hs _ Hr2).
      rewrite !testbit_ToInt32 by lia. rewrite testbit_pow2 by lia.
      destruct (Z.eqb_spec 31 i) as [<- | Hne].
      * rewrite Hb. reflexivity.
      * apply andb_false_r.
Qed.

End MaskAlgebra.

(** ** Claims about masks and single bits *)

(** C1: [clearMask(bits, ALL) == NONE] holds for every [bits], but
    [clearMask(bits, NONE) == bits] breaks on a bitfield whose top bit is
    set: [clearMask] returns [bits & ~mask] without the [>>> 0] that
    [applyMask] and [toggleMask] apply, so [clearMask(ALL, NONE)] is the
    signed number [-1] and not the bitfield [ALL] = 4294967295. *)
Theorem clearMask_ALL_NONE_is_signed :
  BitField ALL /\ clearMask ALL NONE = -1 /\ clearMask ALL NONE <> ALL /\
  ~ BitField (clearMask ALL NONE).
Proof.
  split; [apply BitField_ALL |].
  assert (H : clearMask ALL NONE = -1) by reflexivity.
  split; [exact H |]. rewrite H. unfold BitField, W.
  change ALL with 4294967295. split; lia.
Qed.

(** Setting a bit that is set changes nothing, for every bitfield. *)
Lemma setBitOn_already_set (bits i : Z) :
  BitField bits -> 0 <= i < 32 -> Z.testbit bits i = true ->
  setBitOn bits i = bits.
Proof.
  intros Hb Hi Hset. unfold setBitOn.
  apply BitField_ext; [apply applyMask_BitField | exact Hb |].
  intros j Hj. rewrite testbit_applyMask by exact Hj.
  rewrite bitMask_pow2, testbit_pow2 by lia.
  destruct (Z.eqb_spec j i) as [-> | Hne].
  - rewrite Hset. reflexivity.
  - apply orb_false_r.
Qed.

(** Clearing a bit that is clear changes nothing as long as the top bit
    of the bitfield is clear. *)
Lemma setBitOff_already_clear_low (bits i : Z) :
  0 <= bits < 2 ^ 31 -> 0 <= i < 32 -> Z.testbit bits i = false ->
  setBitOff bits i = bits.
Proof.
  intros Hb Hi Hclr. unfold setBitOff.
  apply Z.bits_inj'. intros j Hj.
  destruct (Z.ltb_spec j 32) as [Hlt | Hge].
  - rewrite testbit_clearMask by lia.
    rewrite bitMask_pow2, testbit_pow2 by lia.
    destruct (Z.eqb_spec j i) as [-> | Hne].
    + rewrite Hclr. reflexivity.
    + apply andb_true_r.
  - unfold clearMask, Js.and. rewrite Z.land_spec.
    rewrite (ToInt32_small bits) by exact Hb.
    assert (Hhigh : Z.testbit bits j = false).
    { destruct (Z.eq_dec bits 0) as [-> | Hnz]; [apply Z.bits_0 |].
      apply Z.bits_above_log2; [lia |].
      pose proof (log2_below bits Hb). lia. }
    rewrite Hhigh. reflexivity.
Qed.

(** With the top bit set, clearing any bit yields the signed reading:
    the result is [2 ^ 32] below the bitfield it should be. *)
Lemma setBitOff_already_clear_high (bits i : Z) :
  2 ^ 31 <= bits < 2 ^ 32 -> 0 <= i < 31 -> Z.testbit bits i = false ->
  setBitOff bits i = bits - 2 ^ 32.
Proof.
  intros Hb Hi Hclr. unfold setBitOff.
  rewrite <- (ToInt32_high bits) by exact Hb.
  pose proof (ToInt32_range bits) as Hr.
  apply Z.bits_inj'. intros j Hj.
  destruct (Z.ltb_spec j 32) as [Hlt | Hge].
  - rewrite testbit_clearMask, testbit_ToInt32 by lia.
    rewrite bitMask_pow2, testbit_pow2 by lia.
    destruct (Z.eqb_spec j i) as [-> | Hne].
    + rewrite Hclr. reflexivity.
    + apply andb_true_r.
  - rewrite testbit_clearMask_high, testbit_ToInt32_high by exact Hge.
    rewrite bitMask_pow2, testbit_pow2 by lia.
    rewrite (testbit_31_high bits Hb).
    destruct (Z.eqb_spec 31 i); [lia | reflexivity].
Qed.


(** C4: [setBitOn] on a bit that is set returns its input
    ([setBitOn_already_set]), but [setBitOff] on a bit that is clear does
    not when the top bit of the bitfield is set: bit 0 of 2147483648 is
    clear and [setBitOff(2147483648, 0)] is the signed number
    -2147483648. *)
Theorem setBitOff_top_bit_is_signed :
  BitField 2147483648 /\ Z.testbit 2147483648 0 = false /\
  getBit 2147483648 0 = false /\
  setBitOff 2147483648 0 = -2147483648 /\
  setBitOff 2147483648 0 <> 2147483648.
Proof.
  split; [unfold BitField, W; lia |].
  split; [reflexivity |]. split; [reflexivity |].
  split; [reflexivity | discriminate].
Qed.

(** C5: for every bitfield [bits] and every mask,
    [toggleMask(toggleMask(bits, mask), mask)] is [bits]. *)
Theorem toggleMask_self_inverse (bits mask : Z) :
  BitField bits -> toggleMask (toggleMask bits mask) mask = bits.
Proof.
  intros Hb.
  apply BitField_ext; [apply toggleMask_BitField | exact Hb |].
  intros i Hi. rewrite !testbit_toggleMask by exact Hi.
  rewrite xorb_assoc, xorb_nilpotent. apply xorb_false_r.
Qed.

Lemma toggleMask_self_inverse_witness :
  BitField 5 /\ toggleMask (toggleMask 5 6) 6 = 5.
Proof.
  assert (H : BitField 5) by (unfold BitField, W; lia).
  split; [exact H | exact (toggleMask_self_inverse 5 6 H)].
Defined.

(** ** The loop of [countBits] *)

Section CountBits.

(** [value & 1] is the low bit, [value >>> 1] halves the unsigned
    reading. *)
Lemma and_1 (v : Z) : v .& 1 = Z.b2z (Z.testbit v 0).
Proof.
  unfold Js.and. change (Js.ToInt32 1) with (Z.ones 1).
  rewrite Z.land_ones by lia. change (2 ^ 1) with 2.
  rewrite <- Z.bit0_mod. rewrite testbit_ToInt32 by lia. reflexivity.
Qed.

Lemma ushr_1 (v : Z) : v .>>> 1 = (v mod 2 ^ 32) / 2.
Proof.
  unfold Js.ushr. rewrite !ToUint32_number.
  change (1 mod 2 ^ 32 mod 32) with 1.
  rewrite Z.shiftr_div_pow2 by lia. reflexivity.
Qed.

Lemma countBits_loop_S (n : nat) (s : Z * Z) :
  countBits_loop (S n) s
  = if snd s =? 0 then Some (fst s) else countBits_loop n (countBits_body s).
Proof. reflexivity. Qed.

Lemma countBits_body_eq (c v : Z) :
  BitField v ->
  countBits_body (c, v) = (c + Z.b2z (Z.testbit v 0), v / 2).
Proof.
  intros Hv. unfold countBits_body. cbn [fst snd].
  rewrite and_1, ushr_1. unfold BitField, W in Hv.
  rewrite Z.mod_small by lia. reflexivity.
Qed.

(** The unsigned shift strictly decreases a non-zero bitfield. *)
Lemma ushr_1_decreases (v : Z) :
  BitField v -> v <> 0 -> 0 <= v .>>> 1 < v.
Proof.
  unfold BitField, W. intros Hv Hnz. rewrite ushr_1.
  rewrite Z.mod_small by lia.
  split; [apply Z.div_pos; lia | apply Z.div_lt; lia].
Qed.

(** After the first turn the value fits in 31 bits, whatever integer
    the loop started from. *)
Lemma ushr_1_below (v : Z) : 0 <= v .>>> 1 < 2 ^ 31.
Proof.
  rewrite ushr_1. pose proof (Z.mod_pos_bound v (2 ^ 32)) as Hm.
  split; [apply Z.div_pos; lia |].
  apply Z.div_lt_upper_bound; lia.
Qed.

Lemma half_below (n : nat) (v : Z) :
  0 <= v < 2 ^ Z.of_nat (S n) -> 0 <= v / 2 < 2 ^ Z.of_nat n.
Proof.
  intros Hv. rewrite Nat2Z.inj_succ, Z.pow_succ_r in Hv by lia.
  split; [apply Z.div_pos; lia | apply Z.div_lt_upper_bound; lia].
Qed.

Lemma pow2_nat_le_32 (n : nat) : (n <= 32)%nat -> 2 ^ Z.of_nat n <= 2 ^ 32.
Proof. intros Hn. apply Z.pow_le_mono_r; lia. Qed.

Lemma set_bits_below_nonneg (n : nat) (v : Z) : 0 <= set_bits_below n v.
Proof.
  induction n as [| n IH]; simpl; [lia |].
  destruct (Z.testbit v (Z.of_nat n)); simpl Z.b2z; lia.
Qed.

Lemma set_bits_below_0 (n : nat) : set_bits_below n 0 = 0.
Proof.
  induction n as [| n IH]; [reflexivity |].
  cbn [set_bits_below]. rewrite Z.bits_0, IH. reflexivity.
Qed.

(** Counting from the low end: the low bit plus the count of the
    shifted value. *)
Lemma set_bits_below_shift (n : nat) (v : Z) :
  set_bits_below (S n) v
  = Z.b2z (Z.testbit v 0) + set_bits_below n (v / 2).
Proof.
  induction n as [| n IH]; [simpl; lia |].
  change (set_bits_below (S (S n)) v)
    with (Z.b2z (Z.testbit v (Z.of_nat (S n))) + set_bits_below (S n) v).
  rewrite IH. cbn [set_bits_below].
  assert (Hbit : Z.testbit (v / 2) (Z.of_nat n) = Z.testbit v (Z.of_nat (S n))).
  { change 2 with (2 ^ 1). rewrite Z.div_pow2_bits by lia.
    f_equal. lia. }
  rewrite Hbit. lia.
Qed.

Lemma set_bits_below_zero_iff (n : nat) (v : Z) :
  0 <= v < 2 ^ Z.of_nat n -> (set_bits_below n v = 0 <-> v = 0).
Proof.
  revert v. induction n as [| n IH]; intros v Hv.
  - change (2 ^ Z.of_nat 0) with 1 in Hv. simpl. split; intros; lia.
  - rewrite set_bits_below_shift.
    pose proof (half_below n v Hv) as Hh.
    pose proof (set_bits_below_nonneg n (v / 2)) as Hnn.
    pose proof (Z.div_mod v 2 ltac:(lia)) as Hdm.
    rewrite <- Z.bit0_mod in Hdm.
    specialize (IH (v / 2) Hh).
    destruct (Z.testbit v 0); simpl Z.b2z in *; split; intros H; lia.
Qed.

(** With enough turns for the width of the value, the loop returns
    the count it started with plus the number of set bits. *)
Lemma countBits_loop_spec (n : nat) :
  (n <= 32)%nat ->
  forall (c v : Z), 0 <= v < 2 ^ Z.of_nat n ->
  countBits_loop n (c, v) = Some (c + set_bits_below n v).
Proof.
  induction n as [| n IH]; intros Hn c v Hv.
  - change (2 ^ Z.of_nat 0) with 1 in Hv. assert (v = 0) as -> by lia.
    simpl. f_equal. lia.
  - cbn [countBits_loop snd fst].
    destruct (Z.eqb_spec v 0) as [-> | Hnz].
    + rewrite set_bits_below_0. f_equal. lia.
    + pose proof (pow2_nat_le_32 (S n) Hn) as Hle.
      rewrite countBits_body_eq by (unfold BitField, W; lia).
      rewrite IH by (try lia; apply half_below; exact Hv).
      rewrite set_bits_below_shift. f_equal. lia.
Qed.

(** Positions above the width of the value hold no set bit. *)
Lemma set_bits_below_widen (n : nat) (v : Z) :
  0 <= v < 2 ^ Z.of_nat n ->
  set_bits_below (S n) v = set_bits_below n v.
Proof.
  intros Hv. cbn [set_bits_below].
  assert (Hb : Z.testbit v (Z.of_nat n) = false).
  { destruct (Z.eq_dec v 0) as [-> | Hnz]; [apply Z.bits_0 |].
    apply Z.bits_above_log2; [lia |]. apply Z.log2_lt_pow2; lia. }
  rewrite Hb. reflexivity.
Qed.

Lemma countBits_loop_more_fuel (n : nat) (s : Z * Z) (r : Z) :
  countBits_loop n s = Some r ->
  forall m, (n <= m)%nat -> countBits_loop m s = Some r.
Proof.
  revert s. induction n as [| n IH]; intros s H m Hm.
  - simpl in H. destruct (snd s =? 0) eqn:E; [| discriminate].
    destruct m; simpl; rewrite E; exact H.
  - destruct m as [| m]; [lia |].
    cbn [countBits_loop] in *. destruct (snd s =? 0); [exact H |].
    apply IH; [exact H | lia].
Qed.

(** The budget of [countBits] is enough for every integer argument:
    the function always returns. *)
Lemma countBits_fuel_enough (bits : Z) : is_Some (countBits bits).
Proof.
  unfold countBits. rewrite (countBits_loop_S 31). cbn [snd fst].
  destruct (bits =? 0); [eexists; reflexivity |].
  unfold countBits_body. cbn [fst snd].
  rewrite (countBits_loop_spec 31) by (try lia; apply ushr_1_below).
  eexists; reflexivity.
Qed.

Lemma countBits_eq_popcount (bits : Z) :
  BitField bits -> countBits bits = Some (popcount bits).
Proof.
  intros Hb. unfold countBits, popcount.
  rewrite (countBits_loop_spec 32) by (try lia; exact Hb).
  reflexivity.
Qed.

End CountBits.

(** ** Claims about [countBits] *)

(** C7: on every bitfield [countBits] returns the population count; the
    result is 0 exactly for [NONE], and [countBits(ALL)] is [W]. *)
Theorem countBits_population_count :
  (forall bits : Z,
     BitField bits ->
     countBits bits = Some (popcount bits) /\
     (countBits bits = Some 0 <-> bits = NONE)) /\
  countBits ALL = Some W /\
  countBits NONE = Some 0.
Proof.
  split; [| split; reflexivity].
  intros bits Hb. split; [apply countBits_eq_popcount; exact Hb |].
  rewrite countBits_eq_popcount by exact Hb. unfold popcount, NONE.
  rewrite <- (set_bits_below_zero_iff 32 bits) by exact Hb.
  split; [intros H; injection H as H; exact H | intros ->; reflexivity].
Qed.

Lemma countBits_population_count_witness :
  BitField 21 /\
  countBits 21 = Some (popcount 21) /\
  (countBits 21 = Some 0 <-> 21 = NONE).
Proof.
  assert (H : BitField 21) by (unfold BitField, W; lia).
  split; [exact H | exact (proj1 countBits_population_count 21 H)].
Defined.

(** The loop reaches a zero value within as many turns as the value has
    bits, and from then on any budget returns the count reached. *)
Lemma countBits_turns (n : nat) :
  (n <= 32)%nat ->
  forall (c v : Z), 0 <= v < 2 ^ Z.of_nat n ->
  exists k : nat,
    (k <= n)%nat /\
    snd (Nat.iter k countBits_body (c, v)) = 0 /\
    forall fuel, (k <= fuel)%nat ->
      countBits_loop fuel (c, v)
      = Some (fst (Nat.iter k countBits_body (c, v))).
Proof.
  induction n as [| n IH]; intros Hn c v Hv.
  - change (2 ^ Z.of_nat 0) with 1 in Hv. assert (v = 0) as -> by lia.
    exists 0%nat. split; [lia |]. split; [reflexivity |].
    intros [| fuel] _; reflexivity.
  - destruct (Z.eq_dec v 0) as [-> | Hnz].
    + exists 0%nat. split; [lia |]. split; [reflexivity |].
      intros [| fuel] _; reflexivity.
    + pose proof (pow2_nat_le_32 (S n) Hn) as Hle.
      assert (Hbf : BitField v) by (unfold BitField, W; lia).
      destruct (IH ltac:(lia) (c + Z.b2z (Z.testbit v 0)) (v / 2)
                  (half_below n v Hv)) as (k & Hk & Hzero & Hrun).
      exists (S k). rewrite Nat.iter_succ_r, countBits_body_eq by exact Hbf.
      split; [lia |]. split; [exact Hzero |].
      intros [| fuel] Hfuel; [lia |].
      rewrite countBits_loop_S. cbn [snd fst].
      destruct (Z.eqb_spec v 0) as [| _]; [contradiction |].
      rewrite countBits_body_eq by exact Hbf. apply Hrun. lia.
Qed.

(** C10: on every bitfield the loop of [countBits] terminates: a turn
    strictly decreases a non-zero value (the shift is unsigned), the
    value is zero after at most [W] turns, and the function returns. *)
Theorem countBits_terminates :
  (forall count value : Z,
     BitField value -> value <> 0 ->
     0 <= snd (countBits_body (count, value)) < value) /\
  (forall bits : Z,
     BitField bits ->
     (exists k : nat,
        (k <= 32)%nat /\
        snd (Nat.iter k countBits_body (0, bits)) = 0 /\
        forall fuel, (k <= fuel)%nat ->
          countBits_loop fuel (0, bits)
          = Some (fst (Nat.iter k countBits_body (0, bits)))) /\
     is_Some (countBits bits)).
Proof.
  split.
  - intros count value Hv Hnz. cbn [countBits_body snd].
    apply ushr_1_decreases; assumption.
  - intros bits Hb. split.
    + apply (countBits_turns 32); [lia | exact Hb].
    + apply countBits_fuel_enough.
Qed.

Lemma countBits_terminates_witness :
  BitField 4294967295 /\ 4294967295 <> 0 /\
  0 <= snd (countBits_body (0, 4294967295)) < 4294967295 /\
  is_Some (countBits 4294967295).
Proof.
  assert (H : BitField 4294967295) by (unfold BitField, W; lia).
  assert (Hnz : 4294967295 <> 0) by lia.
  split; [exact H |]. split; [exact Hnz |]. split.
  - exact (proj1 countBits_terminates 0 4294967295 H Hnz).
  - exact (proj2 (proj2 countBits_terminates 4294967295 H)).
Defined.

(** ** [isSingleBit] *)

Section SingleBit.

(** [a & b] is zero exactly when no position below 32 is set in both
    operands. *)
Lemma and_zero_iff (a b : Z) :
  a .& b = 0 <->
  forall i, 0 <= i < 32 -> Z.testbit a i && Z.testbit b i = false.
Proof.
  unfold Js.and. split.
  - intros H i Hi.
    rewrite <- (testbit_ToInt32 a), <- (testbit_ToInt32 b) by exact Hi.
    rewrite <- Z.land_spec, H. apply Z.bits_0.
  - intros H. apply Z.bits_inj'. intros j Hj.
    rewrite Z.bits_0, Z.land_spec.
    destruct (Z.ltb_spec j 32) as [Hlt | Hge].
    + rewrite !testbit_ToInt32 by lia. apply H. lia.
    + rewrite !testbit_ToInt32_high by exact Hge. apply H. lia.
Qed.

Lemma testbit_above_32 (a j : Z) :
  0 <= a < 2 ^ 32 -> 32 <= j -> Z.testbit a j = false.
Proof.
  intros Ha Hj. rewrite <- (Z.mod_small a (2 ^ 32)) by exact Ha.
  apply Z.mod_pow2_bits_high. lia.
Qed.

Lemma land_zero_iff (a b : Z) :
  0 <= a < 2 ^ 32 ->
  Z.land a b = 0 <->
  forall i, 0 <= i < 32 -> Z.testbit a i && Z.testbit b i = false.
Proof.
  intros Ha. split.
  - intros H i Hi. rewrite <- Z.land_spec, H. apply Z.bits_0.
  - intros H. apply Z.bits_inj'. intros j Hj.
    rewrite Z.bits_0, Z.land_spec.
    destruct (Z.ltb_spec j 32) as [Hlt | Hge].
    + apply H. lia.
    + rewrite (testbit_above_32 a j Ha Hge). reflexivity.
Qed.

Lemma land_even_pred (q : Z) :
  Z.land (2 * q) (2 * q - 1) = 2 * Z.land q (q - 1).
Proof.
  replace (2 * q - 1) with (2 * (q - 1) + 1) by lia.
  apply Z.bits_inj'. intros i Hi. rewrite Z.land_spec.
  destruct (Z.eq_dec i 0) as [-> | Hnz].
  - rewrite !Z.testbit_even_0. reflexivity.
  - replace i with (Z.succ (i - 1)) by lia.
    rewrite !Z.testbit_even_succ, Z.testbit_odd_succ by lia.
    symmetry. apply Z.land_spec.
Qed.

Lemma land_odd_pred (q : Z) : Z.land (2 * q + 1) (2 * q + 1 - 1) = 2 * q.
Proof.
  replace (2 * q + 1 - 1) with (2 * q) by lia.
  apply Z.bits_inj'. intros i Hi. rewrite Z.land_spec.
  destruct (Z.eq_dec i 0) as [-> | Hnz].
  - rewrite Z.testbit_even_0. apply andb_false_r.
  - replace i with (Z.succ (i - 1)) by lia.
    rewrite Z.testbit_even_succ, Z.testbit_odd_succ by lia.
    apply andb_diag.
Qed.

(** Exactly one bit is set iff the value is non-zero and loses all its
    bits when its lowest set bit is removed. *)
Lemma one_bit_iff (n : nat) (v : Z) :
  0 <= v < 2 ^ Z.of_nat n ->
  (v <> 0 /\ Z.land v (v - 1) = 0) <-> set_bits_below n v = 1.
Proof.
  revert v. induction n as [| n IH]; intros v Hv.
  - change (2 ^ Z.of_nat 0) with 1 in Hv. simpl. split; intros; lia.
  - rewrite set_bits_below_shift.
    pose proof (half_below n v Hv) as Hh.
    pose proof (Z.div_mod v 2 ltac:(lia)) as Hdm.
    rewrite <- Z.bit0_mod in Hdm.
    pose proof (set_bits_below_zero_iff n (v / 2) Hh) as Hz.
    specialize (IH (v / 2) Hh).
    set (q := v / 2) in *.
    destruct (Z.testbit v 0); simpl Z.b2z in *.
    + rewrite Hdm, land_odd_pred. split; intros H; lia.
    + replace (2 * q + 0) with (2 * q) in Hdm by lia.
      rewrite Hdm, land_even_pred. rewrite Z.add_0_l, <- IH.
      split; intros [H1 H2]; split; lia.
Qed.

Lemma isSingleBit_spec (bits : Z) :
  BitField bits ->
  isSingleBit bits = true <-> bits <> 0 /\ Z.land bits (bits - 1) = 0.
Proof.
  unfold BitField, W. intros Hb. unfold isSingleBit.
  rewrite andb_true_iff, negb_true_iff, Z.eqb_neq, Z.eqb_eq.
  rewrite and_zero_iff, <- land_zero_iff by exact Hb. reflexivity.
Qed.

End SingleBit.

(** C6: on every bitfield, [isSingleBit] is true iff [countBits] is 1;
    [isSingleBit(NONE)] is false. *)
Theorem isSingleBit_iff_countBits_1 :
  (forall bits : Z,
     BitField bits ->
     isSingleBit bits = true <-> countBits bits = Some 1) /\
  isSingleBit NONE = false.
Proof.
  split; [| reflexivity]. intros bits Hb.
  rewrite isSingleBit_spec, countBits_eq_popcount by exact Hb.
  unfold popcount. rewrite (one_bit_iff 32 bits) by exact Hb.
  split; [intros -> ; reflexivity | intros H; injection H as H; exact H].
Qed.

Lemma isSingleBit_iff_countBits_1_witness :
  BitField 8 /\ (isSingleBit 8 = true <-> countBits 8 = Some 1).
Proof.
  assert (H : BitField 8) by (unfold BitField, W; lia).
  split; [exact H | exact (proj1 isSingleBit_iff_countBits_1 8 H)].
Defined.

(** ** Named collections *)

Section Named.

Implicit Types (result : gmap string Value) (name key : string).

Lemma get_own result name (v : Value) :
  result !! name = Some v -> Object.get result name = v.
Proof. intros H. unfold Object.get. rewrite H. reflexivity. Qed.

Lemma get_absent result name :
  result !! name = None -> Object.get result name = Object.prototype name.
Proof. intros H. unfold Object.get. rewrite H. reflexivity. Qed.

(** Whatever an absent key reads as, [bitMask] turns it into 1: neither
    [undefined] nor an inherited member converts to a number. *)
Lemma bitMask_prototype name : bitMask (Object.prototype name) = 1.
Proof. unfold Object.prototype. case_bool_decide; reflexivity. Qed.

Lemma set_number_lookup result key (n : Z) name :
  name <> "__proto__"%string ->
  Object.set_number result key n !! name
  = if decide (key = name) then Some (VNumber n) else result !! name.
Proof.
  intros Hname. unfold Object.set_number.
  destruct (decide (key = name)) as [-> | Hne].
  - destruct (result !! name); [apply lookup_insert_eq |].
    case_bool_decide; [contradiction | apply lookup_insert_eq].
  - destruct (result !! key); [apply lookup_insert_ne; exact Hne |].
    case_bool_decide; [reflexivity | apply lookup_insert_ne; exact Hne].
Qed.

Lemma set_number_lookup_ne result key (n : Z) name :
  key <> name -> Object.set_number result key n !! name = result !! name.
Proof.
  intros Hne. unfold Object.set_number.
  destruct (result !! key); [apply lookup_insert_ne; exact Hne |].
  case_bool_decide; [reflexivity | apply lookup_insert_ne; exact Hne].
Qed.

(** A name that is not assigned keeps what the object had. *)
Lemma forEach_assign_other (names : list string) (index : Z) result name :
  name ∉ names -> forEach_assign names index result !! name = result !! name.
Proof.
  revert index result. induction names as [| n0 rest IH]; intros index result Hnot.
  - reflexivity.
  - apply not_elem_of_cons in Hnot as [Hne Hrest].
    cbn [forEach_assign]. rewrite IH by exact Hrest.
    apply set_number_lookup_ne. congruence.
Qed.

(** The last occurrence of a name decides its position. *)
Lemma forEach_assign_last (names : list string) (index : Z) result
      (k : nat) name :
  name <> "__proto__"%string ->
  names !! k = Some name -> name ∉ drop (S k) names ->
  forEach_assign names index result !! name
  = Some (VNumber (index + Z.of_nat k)).
Proof.
  intros Hname. revert index result k.
  induction names as [| n0 rest IH]; intros index result k Hk Hlast.
  - discriminate.
  - cbn [forEach_assign]. destruct k as [| k].
    + injection Hk as ->. cbn [drop] in Hlast.
      rewrite forEach_assign_other by exact Hlast.
      rewrite set_number_lookup by exact Hname.
      rewrite decide_True by reflexivity. do 2 f_equal. lia.
    + cbn in Hk. cbn [drop] in Hlast.
      rewrite (IH (index + 1) _ k Hk Hlast). do 2 f_equal. lia.
Qed.

(** The loop never creates an own [__proto__] on an object without
    one. *)
Lemma forEach_assign_proto (names : list string) (index : Z) result :
  result !! "__proto__"%string = None ->
  forEach_assign names index result !! "__proto__"%string = None.
Proof.
  revert index result. induction names as [| n0 rest IH]; intros index result H.
  - exact H.
  - cbn [forEach_assign]. apply IH. unfold Object.set_number.
    destruct (result !! n0) eqn:E.
    + rewrite lookup_insert_ne; [exact H | congruence].
    + case_bool_decide; [exact H |]. rewrite lookup_insert_ne; [exact H | congruence].
Qed.

Lemma defineBitFlags_mask_member (definition : gmap string Z) :
  defineBitFlags definition !! "mask"%string = Some VMaskFn.
Proof. apply lookup_insert_eq. Qed.

Lemma defineBitEnum_mask_member (names : list string) :
  defineBitEnum names !! "mask"%string = Some VMaskFn.
Proof. apply lookup_insert_eq. Qed.

(** On an object whose [mask] member is the closure, the call succeeds
    and computes [bitMask(result[name])]. *)
Lemma mask_call result name :
  result !! "mask"%string = Some VMaskFn ->
  mask result name = Some (bitMask (Object.get result name)).
Proof. intros H. unfold mask. rewrite (get_own _ _ _ H). reflexivity. Qed.

End Named.

(** ** Claims about named collections *)

(** C3, as stated, fails on the name [mask]: the accessor is stored in
    the collection under that name and replaces the supplied position. *)
Lemma defineBitFlags_mask_name_replaced :
  let definition : gmap string Z := {[ "mask"%string := 0 ]} in
  definition !! "mask"%string = Some 0 /\
  Object.get (defineBitFlags definition) "mask" = VMaskFn /\
  Object.get (defineBitFlags definition) "mask" <> VNumber 0.
Proof.
  cbn zeta. split; [reflexivity |].
  assert (H : Object.get (defineBitFlags {[ "mask"%string := 0 ]}) "mask" = VMaskFn)
    by (apply get_own, defineBitFlags_mask_member).
  split; [exact H | rewrite H; discriminate].
Qed.

(** C3, amended: for every name of the mapping other than [mask] the
    collection holds exactly the supplied position, and its mask is
    [bitMask] of that position; for every name whatsoever
    [result.mask(name)] is [bitMask(result[name])]. *)
Theorem defineBitFlags_positions_verbatim (definition : gmap string Z) :
  (forall (name : string) (position : Z),
     definition !! name = Some position ->
     name <> "mask"%string ->
     Object.get (defineBitFlags definition) name = VNumber position /\
     mask (defineBitFlags definition) name = Some (bitMask position)) /\
  (forall name : string,
     mask (defineBitFlags definition) name
     = Some (bitMask (Object.get (defineBitFlags definition) name))).
Proof.
  split.
  - intros name position Hin Hname.
    assert (Hget : Object.get (defineBitFlags definition) name = VNumber position).
    { apply get_own. unfold defineBitFlags.
      rewrite lookup_insert_ne by congruence.
      rewrite lookup_fmap, Hin. reflexivity. }
    split; [exact Hget |].
    rewrite mask_call by apply defineBitFlags_mask_member.
    rewrite Hget. reflexivity.
  - intros name. apply mask_call, defineBitFlags_mask_member.
Qed.

Lemma defineBitFlags_positions_verbatim_witness :
  let definition : gmap string Z :=
    {[ "READ"%string := 0; "WRITE"%string := 1;
       "DELETE"%string := 2; "ADMIN"%string := 5 ]} in
  Object.get (defineBitFlags definition) "ADMIN" = VNumber 5 /\
  mask (defineBitFlags definition) "ADMIN" = Some (bitMask 5).
Proof.
  cbn zeta.
  assert (Hin : ({[ "READ"%string := 0; "WRITE"%string := 1;
                    "DELETE"%string := 2; "ADMIN"%string := 5 ]}
                 : gmap string Z) !! "ADMIN"%string = Some 5)
    by (vm_compute; reflexivity).
  assert (Hname : "ADMIN"%string <> "mask"%string) by discriminate.
  exact (proj1 (defineBitFlags_positions_verbatim _) "ADMIN"%string 5 Hin Hname).
Defined.

(** C8, as stated, fails on the names [mask] and [__proto__]: the index
    stored under [mask] is overwritten by the accessor, and the
    assignment to [__proto__] does not store its index. *)
Lemma defineBitEnum_reserved_names :
  ["mask"%string] !! 0%nat = Some "mask"%string /\
  Object.get (defineBitEnum ["mask"%string]) "mask" = VMaskFn /\
  Object.get (defineBitEnum ["mask"%string]) "mask" <> VNumber 0 /\
  Object.get (defineBitEnum ["__proto__"%string]) "__proto__"
  = VBuiltin "__proto__" /\
  Object.get (defineBitEnum ["__proto__"%string]) "__proto__" <> VNumber 0.
Proof.
  split; [reflexivity |].
  assert (H1 : Object.get (defineBitEnum ["mask"%string]) "mask" = VMaskFn)
    by (apply get_own, defineBitEnum_mask_member).
  assert (H2 : Object.get (defineBitEnum ["__proto__"%string]) "__proto__"
               = VBuiltin "__proto__") by (vm_compute; reflexivity).
  split; [exact H1 |]. split; [rewrite H1; discriminate |].
  split; [exact H2 | rewrite H2; discriminate].
Qed.

(** C8, amended: a name other than [mask] and [__proto__] is assigned
    the 0-based index of its last occurrence in the sequence; the member
    [mask] of every collection is the accessor, also when [mask] is one
    of the names (its index is replaced), and the accessor computes
    [bitMask(result[name])]; with zero names the collection has the
    accessor [mask] as its only member.  Nothing is stated about the
    name [__proto__]. *)
Theorem defineBitEnum_sequential :
  (forall (names : list string) (k : nat) (name : string),
     names !! k = Some name ->
     name ∉ drop (S k) names ->
     name <> "mask"%string ->
     name <> "__proto__"%string ->
     Object.get (defineBitEnum names) name = VNumber (Z.of_nat k)) /\
  (forall names : list string,
     defineBitEnum names !! "mask"%string = Some VMaskFn /\
     Object.get (defineBitEnum names) "mask" = VMaskFn /\
     forall name : string,
       mask (defineBitEnum names) name
       = Some (bitMask (Object.get (defineBitEnum names) name))) /\
  defineBitEnum [] = {[ "mask"%string := VMaskFn ]} /\
  Object.keys (defineBitEnum []) = {[ "mask"%string ]}.
Proof.
  split; [| split; [| split]].
  - intros names k name Hk Hlast Hmask Hproto. apply get_own. unfold defineBitEnum.
    rewrite lookup_insert_ne by congruence.
    rewrite (forEach_assign_last names 0 ∅ k name Hproto Hk Hlast).
    reflexivity.
  - intros names. pose proof (defineBitEnum_mask_member names) as Hmember.
    split; [exact Hmember |]. split; [apply get_own; exact Hmember |].
    intros name. apply mask_call. exact Hmember.
  - reflexivity.
  - unfold Object.keys, defineBitEnum. cbn [forEach_assign].
    rewrite dom_insert_L, dom_empty_L. set_solver.
Qed.

Lemma defineBitEnum_sequential_witness :
  Object.get (defineBitEnum ["A"; "B"; "A"; "C"]%string) "A" = VNumber 2 /\
  Object.get (defineBitEnum ["A"; "mask"; "B"]%string) "mask" = VMaskFn.
Proof.
  assert (Hk : ["A"; "B"; "A"; "C"]%string !! 2%nat = Some "A"%string)
    by reflexivity.
  assert (Hlast : "A"%string ∉ drop 3 ["A"; "B"; "A"; "C"]%string)
    by (cbn; rewrite list_elem_of_singleton; discriminate).
  assert (Hmask : "A"%string <> "mask"%string) by discriminate.
  assert (Hproto : "A"%string <> "__proto__"%string) by discriminate.
  split.
  - exact (proj1 defineBitEnum_sequential _ 2%nat "A"%string Hk Hlast Hmask Hproto).
  - exact (proj1 (proj2 (proj1 (proj2 defineBitEnum_sequential)
                           ["A"; "mask"; "B"]%string))).
Defined.

(** C9: on a collection built by either factory, [mask(name)] for a name
    that is not a key does not fail and returns
    [bitMask(undefined)] = [bitMask(0)] = 1. *)
Theorem mask_unknown_name :
  (forall (result : gmap string Value) (name : string),
     (exists definition : gmap string Z, result = defineBitFlags definition) \/
     (exists names : list string, result = defineBitEnum names) ->
     result !! name = None ->
     mask result name = Some (bitMask VUndefined)) /\
  bitMask VUndefined = bitMask 0 /\
  bitMask 0 = 1.
Proof.
  split; [| split; reflexivity].
  intros result name Hbuilt Habsent.
  assert (Hmember : result !! "mask"%string = Some VMaskFn).
  { destruct Hbuilt as [[definition ->] | [names ->]].
    - apply defineBitFlags_mask_member.
    - apply defineBitEnum_mask_member. }
  rewrite (mask_call result name Hmember).
  rewrite (get_absent result name Habsent), bitMask_prototype.
  reflexivity.
Qed.

Lemma mask_unknown_name_witness :
  mask (defineBitEnum ["GUEST"; "ADMIN"]%string) "OWNER" = Some 1 /\
  mask (defineBitFlags {[ "READ"%string := 4 ]}) "toString" = Some 1.
Proof.
  assert (Hn1 : defineBitEnum ["GUEST"; "ADMIN"]%string !! "OWNER"%string = None)
    by (vm_compute; reflexivity).
  assert (Hn2 : defineBitFlags {[ "READ"%string := 4 ]} !! "toString"%string = None)
    by (vm_compute; reflexivity).
  split.
  - exact (proj1 mask_unknown_name _ "OWNER"%string
             (or_intror (ex_intro _ ["GUEST"; "ADMIN"]%string eq_refl)) Hn1).
  - exact (proj1 mask_unknown_name _ "toString"%string
             (or_introl (ex_intro _ {[ "READ"%string := 4 ]} eq_refl)) Hn2).
Defined.

(** ** [toBinaryString] *)

Section BinaryString.

Lemma length_append (s t : string) :
  String.length (String.append s t) = (String.length s + String.length t)%nat.
Proof. induction s as [| c s IH]; simpl; [| rewrite IH]; reflexivity. Qed.

Lemma length_string_repeat_0 (n : nat) :
  String.length (string_repeat "0" n) = n.
Proof.
  induction n as [| n IH]; [reflexivity |].
  change (string_repeat "0" (S n)) with (String "0" (string_repeat "0" n)).
  cbn [String.length]. f_equal. exact IH.
Qed.

Lemma substring_whole (s : string) :
  String.substring 0 (String.length s) s = s.
Proof. induction s as [| c s IH]; simpl; [| rewrite IH]; reflexivity. Qed.

(** The filler built from ["0"] is a run of zeros of the wanted
    length. *)
Lemma filler_zeros (n : nat) :
  String.substring 0 n (string_repeat "0" n) = string_repeat "0" n.
Proof.
  pose proof (substring_whole (string_repeat "0" n)) as H.
  rewrite length_string_repeat_0 in H. exact H.
Qed.

Lemma length_binary_digits (p : positive) (acc : string) :
  String.length (binary_digits p acc)
  = (Pos.size_nat p + String.length acc)%nat.
Proof.
  revert acc. induction p as [p IH | p IH |]; intros acc; simpl.
  - rewrite IH. simpl. lia.
  - rewrite IH. simpl. lia.
  - reflexivity.
Qed.

Lemma digit_count_pos (p : positive) : digit_count (Zpos p) = Pos.size_nat p.
Proof.
  unfold digit_count. simpl. rewrite length_binary_digits. simpl. lia.
Qed.

Lemma digit_count_positive (n : Z) : (1 <= digit_count n)%nat.
Proof.
  destruct n as [| p | p]; unfold digit_count; simpl;
    [lia | | ]; rewrite ?length_binary_digits; destruct p; simpl; lia.
Qed.

(** A positive number has as many digits as its size: it lies between
    the matching powers of two. *)
Lemma size_nat_bounds (p : positive) :
  2 ^ Z.of_nat (Pos.size_nat p) <= 2 * Zpos p < 2 * 2 ^ Z.of_nat (Pos.size_nat p).
Proof.
  induction p as [p IH | p IH |].
  - cbn [Pos.size_nat]. rewrite Nat2Z.inj_succ, Z.pow_succ_r by lia. lia.
  - cbn [Pos.size_nat]. rewrite Nat2Z.inj_succ, Z.pow_succ_r by lia. lia.
  - simpl. lia.
Qed.

(** The digits fit in [n] characters iff the number is below [2 ^ n]. *)
Lemma digit_count_le (bits : Z) (n : nat) :
  0 <= bits -> (1 <= n)%nat ->
  (digit_count bits <= n)%nat <-> bits < 2 ^ Z.of_nat n.
Proof.
  intros Hb Hn. destruct bits as [| p | p]; [| | lia].
  - change (digit_count 0) with 1%nat.
    split; intros _; [apply Z.pow_pos_nonneg; lia | exact Hn].
  - rewrite digit_count_pos. pose proof (size_nat_bounds p) as Hs. split.
    + intros Hle.
      assert (2 ^ Z.of_nat (Pos.size_nat p) <= 2 ^ Z.of_nat n)
        by (apply Z.pow_le_mono_r; lia).
      lia.
    + intros Hlt. apply Nat.nlt_ge. intros Hgt.
      assert (2 ^ Z.of_nat (S n) <= 2 ^ Z.of_nat (Pos.size_nat p))
        by (apply Z.pow_le_mono_r; lia).
      rewrite Nat2Z.inj_succ, Z.pow_succ_r in H by lia. lia.
Qed.

(** Reading the digits back gives the number. *)
Lemma binary_value_from_digits (p : positive) (acc : string) (a : Z) :
  binary_value_from a (binary_digits p acc)
  = binary_value_from (a * 2 ^ Z.of_nat (Pos.size_nat p) + Zpos p) acc.
Proof.
  revert acc a. induction p as [p IH | p IH |]; intros acc a.
  - cbn [binary_digits Pos.size_nat]. rewrite IH.
    rewrite Nat2Z.inj_succ, Z.pow_succ_r by lia.
    cbn [binary_value_from]. change (Ascii.eqb "1" "1") with true.
    f_equal. lia.
  - cbn [binary_digits Pos.size_nat]. rewrite IH.
    rewrite Nat2Z.inj_succ, Z.pow_succ_r by lia.
    cbn [binary_value_from]. change (Ascii.eqb "0" "1") with false.
    f_equal. lia.
  - cbn [binary_digits Pos.size_nat binary_value_from].
    change (Ascii.eqb "1" "1") with true. f_equal. simpl. lia.
Qed.

Lemma binary_value_toString (bits : Z) :
  0 <= bits -> binary_value (Number_toString_2 bits) = bits.
Proof.
  intros Hb. destruct bits as [| p | p]; [reflexivity | | lia].
  unfold binary_value. simpl Number_toString_2.
  rewrite binary_value_from_digits. reflexivity.
Qed.

Lemma binary_value_zeros (n : nat) (s : string) :
  binary_value (String.append (string_repeat "0" n) s) = binary_value s.
Proof.
  unfold binary_value. induction n as [| n IH]; [reflexivity |].
  cbn [string_repeat String.append binary_value_from].
  change (Ascii.eqb "0" "1") with false. exact IH.
Qed.

(** What [toBinaryString] returns: the digits of [bits] behind as many
    zeros as it takes to reach [length], and behind none when the
    digits are already that long. *)
Lemma toBinaryString_eq (bits length : Z) :
  toBinaryString bits (Some length)
  = String.append
      (string_repeat "0" (Z.to_nat length - digit_count bits))
      (Number_toString_2 bits).
Proof.
  unfold toBinaryString. change (default 32 (Some length)) with length.
  unfold padStart, digit_count. cbv zeta.
  destruct (Nat.leb_spec (Z.to_nat length) (String.length (Number_toString_2 bits)))
    as [Hle | Hgt].
  - replace (Z.to_nat length - String.length (Number_toString_2 bits))%nat
      with 0%nat by lia.
    reflexivity.
  - rewrite bool_decide_eq_false_2 by discriminate.
    rewrite filler_zeros. reflexivity.
Qed.

End BinaryString.

(** ** Claims about [toBinaryString] *)

(** C2, as stated, fails when [bits] needs more than [length] digits:
    [padStart] returns a string that is already long enough unchanged,
    so [toBinaryString(255, 4)] is the eight digits of 255, not four. *)
Lemma toBinaryString_255_4 :
  BitField 255 /\ 0 < 4 /\
  toBinaryString 255 (Some 4) = "11111111"%string /\
  String.length (toBinaryString 255 (Some 4)) <> 4%nat /\
  toBinaryString 255 (Some 4) <> "1111"%string.
Proof.
  split; [unfold BitField, W; lia |]. split; [lia |].
  split; [reflexivity |]. split; [simpl; lia | discriminate].
Qed.

(** C2, amended: for a bitfield [bits] and a positive [length],
    [toBinaryString] returns the binary digits of [bits] left-padded
    with ['0'] up to [length] characters; the result has exactly
    [length] characters when [bits < 2 ^ length], and when [bits] needs
    more digits all of them are returned, nothing is truncated.  With
    the default length the result has [W] characters. *)
Theorem toBinaryString_pads (bits length : Z) :
  BitField bits -> 0 < length ->
  toBinaryString bits (Some length)
  = String.append
      (string_repeat "0" (Z.to_nat length - digit_count bits))
      (Number_toString_2 bits) /\
  String.length (toBinaryString bits (Some length))
  = Nat.max (Z.to_nat length) (digit_count bits) /\
  (bits < 2 ^ length ->
   String.length (toBinaryString bits (Some length)) = Z.to_nat length) /\
  (2 ^ length <= bits ->
   toBinaryString bits (Some length) = Number_toString_2 bits /\
   (Z.to_nat length < String.length (toBinaryString bits (Some length)))%nat) /\
  binary_value (toBinaryString bits (Some length)) = bits /\
  String.length (toBinaryString bits None) = 32%nat.
Proof.
  intros Hb Hlen. unfold BitField, W in Hb.
  assert (Hfit : forall n : Z, 0 < n ->
            (digit_count bits <= Z.to_nat n)%nat <-> bits < 2 ^ n).
  { intros n Hn. rewrite (digit_count_le bits (Z.to_nat n)) by lia.
    rewrite Z2Nat.id by lia. reflexivity. }
  assert (Hlength : forall n : Z,
            String.length (toBinaryString bits (Some n))
            = Nat.max (Z.to_nat n) (digit_count bits)).
  { intros n. rewrite toBinaryString_eq, length_append, length_string_repeat_0.
    fold (digit_count bits). lia. }
  split; [apply toBinaryString_eq |].
  split; [apply Hlength |]. split; [| split; [| split]].
  - intros Hlt. rewrite Hlength. apply (Hfit length Hlen) in Hlt. lia.
  - intros Hge.
    assert (Hdig : (Z.to_nat length < digit_count bits)%nat).
    { apply Nat.nle_gt. intros Hle. apply (Hfit length Hlen) in Hle. lia. }
    split; [| rewrite Hlength; lia].
    rewrite toBinaryString_eq.
    replace (Z.to_nat length - digit_count bits)%nat with 0%nat by lia.
    reflexivity.
  - rewrite toBinaryString_eq, binary_value_zeros.
    apply binary_value_toString. lia.
  - change (toBinaryString bits None) with (toBinaryString bits (Some 32)).
    rewrite Hlength.
    assert (digit_count bits <= Z.to_nat 32)%nat by (apply (Hfit 32); lia).
    lia.
Qed.

Lemma toBinaryString_pads_witness :
  BitField 5 /\ 0 < 8 /\
  toBinaryString 5 (Some 8) = "00000101"%string /\
  String.length (toBinaryString 5 (Some 8)) = 8%nat.
Proof.
  assert (Hb : BitField 5) by (unfold BitField, W; lia).
  assert (Hlen : 0 < 8) by lia.
  destruct (toBinaryString_pads 5 8 Hb Hlen) as (Heq & Hlength & _).
  split; [exact Hb |]. split; [exact Hlen |].
  split; [exact Heq | exact Hlength].
Defined.

(** ** Further properties of the mask operations *)

Section MaskProperties.

Lemma mod32_of_uint32 (i : Z) : (i mod 2 ^ 32) mod 32 = i mod 32.
Proof.
  pose proof (Z.div_mod i (2 ^ 32) ltac:(lia)) as Hdm.
  set (q := i / 2 ^ 32) in *. set (r := i mod 2 ^ 32) in *.
  assert (H : i mod 32 = (r + (134217728 * q) * 32) mod 32) by (f_equal; lia).
  rewrite H, Z.mod_add by lia. reflexivity.
Qed.

Lemma index_mod32_range (i : Z) : 0 <= i mod 32 < 32.
Proof. apply Z.mod_pos_bound. lia. Qed.

(** A search over the positions of a bitfield. *)
Lemma bounded_search (f : Z -> bool) (n : nat) :
  (forall i, 0 <= i < Z.of_nat n -> f i = false) \/
  (exists i, 0 <= i < Z.of_nat n /\ f i = true).
Proof.
  induction n as [| n [IH | (i & Hi & Hf)]].
  - left. intros i Hi. lia.
  - destruct (f (Z.of_nat n)) eqn:Hn.
    + right. exists (Z.of_nat n). split; [lia | exact Hn].
    + left. intros i Hi.
      destruct (Z.eq_dec i (Z.of_nat n)) as [-> | Hne]; [exact Hn |].
      apply IH. lia.
  - right. exists i. split; [lia | exact Hf].
Qed.

Lemma and_ALL (bits : Z) : bits .& ALL = Js.ToInt32 bits.
Proof.
  unfold Js.and. change (Js.ToInt32 ALL) with (-1). apply Z.land_m1_r.
Qed.

Lemma ToInt32_zero_iff (n : Z) : Js.ToInt32 n = 0 <-> n mod 2 ^ 32 = 0.
Proof.
  pose proof (ToInt32_mod n) as Hm. pose proof (ToInt32_range n) as Hr.
  split; intros H.
  - rewrite <- Hm, H. reflexivity.
  - rewrite H in Hm.
    apply Z.mod_divide in Hm; [| lia]. destruct Hm as [q Hq]. lia.
Qed.

(** [bitMask] on any integer index. *)
Lemma bitMask_mod32 (j : Z) : bitMask j = 2 ^ (j mod 32).
Proof.
  pose proof (index_mod32_range j) as Hj.
  rewrite <- (bitMask_pow2 (j mod 32)) by exact Hj.
  unfold bitMask, Js.shl. rewrite !ToUint32_number, !mod32_of_uint32.
  rewrite Z.mod_mod by lia. reflexivity.
Qed.

Lemma checkMask_false_iff (bits mask : Z) :
  checkMask bits mask = false <->
  forall i, 0 <= i < 32 -> Z.testbit bits i && Z.testbit mask i = false.
Proof.
  unfold checkMask. rewrite negb_false_iff, Z.eqb_eq. apply and_zero_iff.
Qed.

End MaskProperties.

(** X1: [bitMask] takes its index modulo 32, for every integer: an index
    at or above the width, or a negative one, wraps to a position inside
    the width, and the result is always a bitfield with that one bit. *)
Theorem bitMask_wraps (i : Z) :
  bitMask i = 2 ^ (i mod 32) /\
  BitField (bitMask i) /\
  bitMask (i + 32) = bitMask i.
Proof.
  pose proof bitMask_mod32 as Hw.
  split; [apply Hw |]. split.
  - rewrite Hw, <- (bitMask_pow2 (i mod 32)) by apply index_mod32_range.
    apply bitMask_BitField, index_mod32_range.
  - rewrite !Hw. f_equal.
    replace (i + 32) with (i + 1 * 32) by lia. apply Z.mod_add. lia.
Qed.

(** X2: [checkMask] is "any", not "all": it is true exactly when some
    position below 32 is set in both [bits] and [mask]. *)
Theorem checkMask_any (bits mask : Z) :
  checkMask bits mask = true <->
  exists i, 0 <= i < 32 /\ Z.testbit bits i = true /\ Z.testbit mask i = true.
Proof.
  unfold checkMask. rewrite negb_true_iff, Z.eqb_neq, and_zero_iff. split.
  - intros Hnot.
    destruct (bounded_search (fun i => Z.testbit bits i && Z.testbit mask i) 32)
      as [Hall | (i & Hi & Hf)].
    + contradiction.
    + exists i. apply andb_true_iff in Hf. split; [lia | exact Hf].
  - intros (i & Hi & Hb & Hm) Hall. specialize (Hall i Hi).
    rewrite Hb, Hm in Hall. discriminate.
Qed.

(** X3: no bit is selected by [NONE]; [ALL] selects every bit, so
    [checkMask(bits, ALL)] tells whether the 32-bit pattern of [bits] is
    non-zero. *)
Theorem checkMask_NONE_ALL (bits : Z) :
  checkMask bits NONE = false /\
  checkMask bits ALL = negb (bits mod 2 ^ 32 =? 0) /\
  (BitField bits -> checkMask bits ALL = negb (bits =? NONE)).
Proof.
  assert (HALL : checkMask bits ALL = negb (bits mod 2 ^ 32 =? 0)).
  { unfold checkMask. rewrite and_ALL. f_equal.
    destruct (Z.eqb_spec (bits mod 2 ^ 32) 0) as [H | H].
    - apply Z.eqb_eq, ToInt32_zero_iff, H.
    - apply Z.eqb_neq. rewrite ToInt32_zero_iff. exact H. }
  split; [| split].
  - unfold checkMask, Js.and, NONE. change (Js.ToInt32 0) with 0.
    rewrite Z.land_0_r. reflexivity.
  - exact HALL.
  - intros Hb. rewrite HALL. unfold BitField, W in Hb.
    rewrite Z.mod_small by lia. reflexivity.
Qed.

Lemma checkMask_NONE_ALL_witness :
  BitField 5 /\ checkMask 5 ALL = negb (5 =? NONE).
Proof.
  assert (H : BitField 5) by (unfold BitField, W; lia).
  split; [exact H | exact (proj2 (proj2 (checkMask_NONE_ALL 5)) H)].
Defined.

(** X4: [applyMask] returns a bitfield whatever integers it is given,
    and its bit at each position is the "or" of the two bits there. *)
Theorem applyMask_or (bits mask : Z) :
  BitField (applyMask bits mask) /\
  forall i, 0 <= i < 32 ->
    Z.testbit (applyMask bits mask) i = Z.testbit bits i || Z.testbit mask i.
Proof.
  split; [apply applyMask_BitField |].
  intros i Hi. apply testbit_applyMask. exact Hi.
Qed.

(** X5: on a bitfield, [applyMask] with [NONE] changes nothing and with
    [ALL] gives [ALL]; applying the same mask a second time changes
    nothing, and the two arguments can be exchanged. *)
Theorem applyMask_identities (bits mask : Z) :
  BitField bits ->
  applyMask bits NONE = bits /\
  applyMask bits ALL = ALL /\
  applyMask (applyMask bits mask) mask = applyMask bits mask /\
  applyMask bits mask = applyMask mask bits.
Proof.
  intros Hb. split; [| split; [| split]].
  - apply BitField_ext; [apply applyMask_BitField | exact Hb |].
    intros i Hi. rewrite testbit_applyMask by exact Hi.
    unfold NONE. rewrite Z.bits_0. apply orb_false_r.
  - apply BitField_ext; [apply applyMask_BitField | apply BitField_ALL |].
    intros i Hi. rewrite testbit_applyMask by exact Hi.
    change ALL with (Z.ones 32). rewrite Z.ones_spec_low by lia.
    apply orb_true_r.
  - apply BitField_ext; try apply applyMask_BitField.
    intros i Hi. rewrite !testbit_applyMask by exact Hi.
    rewrite <- orb_assoc, orb_diag. reflexivity.
  - apply BitField_ext; try apply applyMask_BitField.
    intros i Hi. rewrite !testbit_applyMask by exact Hi. apply orb_comm.
Qed.

Lemma applyMask_identities_witness :
  BitField 10 /\
  applyMask 10 NONE = 10 /\
  applyMask 10 ALL = ALL /\
  applyMask (applyMask 10 5) 5 = applyMask 10 5 /\
  applyMask 10 5 = applyMask 5 10.
Proof.
  assert (H : BitField 10) by (unfold BitField, W; lia).
  split; [exact H | exact (applyMask_identities 10 5 H)].
Defined.

(** Two signed 32-bit integers with the same low 32 bits are equal. *)
Lemma int32_ext (a b : Z) :
  - 2 ^ 31 <= a < 2 ^ 31 -> - 2 ^ 31 <= b < 2 ^ 31 ->
  (forall i, 0 <= i < 32 -> Z.testbit a i = Z.testbit b i) -> a = b.
Proof.
  intros Ha Hb H. apply Z.bits_inj'. intros j Hj.
  destruct (Z.ltb_spec j 32) as [Hlt | Hge].
  - apply H. lia.
  - rewrite (testbit_sign_extend a j Ha Hge), (testbit_sign_extend b j Hb Hge).
    apply H. lia.
Qed.

Lemma land_int32_range (a b : Z) :
  - 2 ^ 31 <= a < 2 ^ 31 -> - 2 ^ 31 <= b < 2 ^ 31 ->
  - 2 ^ 31 <= Z.land a b < 2 ^ 31.
Proof.
  intros Ha Hb.
  assert (Hhigh : forall j, 31 <= j ->
            Z.testbit (Z.land a b) j = Z.testbit (Z.land a b) 31).
  { intros j Hj. rewrite !Z.land_spec.
    destruct (Z.eq_dec j 31) as [-> | Hne]; [reflexivity |].
    rewrite (testbit_sign_extend a j Ha), (testbit_sign_extend b j Hb) by lia.
    reflexivity. }
  destruct (Z.testbit (Z.land a b) 31) eqn:Hs.
  - (* negative: every bit from 31 up is set *)
    assert (Hneg : Z.land a b < 0).
    { apply Z.land_neg. rewrite Z.land_spec in Hs.
      apply andb_true_iff in Hs as [Hsa Hsb].
      split.
      - destruct (Z.neg_nonneg_cases a) as [|Hn]; [assumption |].
        rewrite Z.bits_above_log2 in Hsa;
          [discriminate | lia | apply log2_below; lia].
      - destruct (Z.neg_nonneg_cases b) as [|Hn]; [assumption |].
        rewrite Z.bits_above_log2 in Hsb;
          [discriminate | lia | apply log2_below; lia]. }
    split; [| lia].
    destruct (Z.lt_ge_cases (Z.land a b) (- 2 ^ 31)) as [Hlt | Hge]; [| exact Hge].
    exfalso.
    set (x := Z.land a b) in *.
    set (y := Z.pred (- x)).
    assert (Hxy : x = Z.lnot y) by (unfold Z.lnot, y; lia).
    assert (Hlog : 31 <= Z.log2 y) by (apply Z.log2_le_pow2; unfold y; lia).
    assert (Hbit : Z.testbit y (Z.log2 y) = true)
      by (apply Z.bit_log2; unfold y; lia).
    assert (Hx : Z.testbit x (Z.log2 y) = false).
    { rewrite Hxy, Z.lnot_spec by apply Z.log2_nonneg.
      rewrite Hbit. reflexivity. }
    rewrite Hhigh in Hx by exact Hlog. discriminate.
  - assert (Hpos : 0 <= Z.land a b).
    { destruct (Z.neg_nonneg_cases (Z.land a b)) as [Hn | Hn]; [| exact Hn].
      exfalso. apply Z.land_neg in Hn as [Hna Hnb].
      rewrite Z.land_spec in Hs.
      rewrite (Z.bits_above_log2_neg a 31), (Z.bits_above_log2_neg b 31) in Hs;
        try lia; try discriminate; apply log2_below; lia. }
    split; [lia |].
    destruct (Z.lt_ge_cases (Z.land a b) (2 ^ 31)) as [Hlt | Hge]; [exact Hlt |].
    exfalso. set (x := Z.land a b) in *.
    assert (Hlog : 31 <= Z.log2 x) by (apply Z.log2_le_pow2; lia).
    assert (Hbit : Z.testbit x (Z.log2 x) = true) by (apply Z.bit_log2; lia).
    rewrite Hhigh in Hbit by exact Hlog. discriminate.
Qed.

Lemma and_range (a b : Value) : - 2 ^ 31 <= a .& b < 2 ^ 31.
Proof. apply land_int32_range; apply ToInt32_range. Qed.

Lemma clearMask_range (bits mask : Z) :
  - 2 ^ 31 <= clearMask bits mask < 2 ^ 31.
Proof. apply and_range. Qed.

Lemma clearMask_exact (bits mask : Z) :
  clearMask bits mask = Js.ToInt32 (Z.land bits (Z.lnot mask)).
Proof.
  apply int32_ext; [apply clearMask_range | apply ToInt32_range |].
  intros i Hi. rewrite testbit_clearMask, testbit_ToInt32 by exact Hi.
  rewrite Z.land_spec, Z.lnot_spec by lia. reflexivity.
Qed.

Lemma land_BitField (bits x : Z) : BitField bits -> BitField (Z.land bits x).
Proof.
  unfold BitField, W. intros Hb.
  assert (H : Z.land bits x = Z.land bits x mod 2 ^ 32).
  { apply Z.bits_inj'. intros j Hj. destruct (Z.ltb_spec j 32) as [Hlt | Hge].
    - rewrite testbit_mod32 by lia. reflexivity.
    - rewrite Z.mod_pow2_bits_high by lia.
      rewrite Z.land_spec, (testbit_above_32 bits j Hb Hge). reflexivity. }
  rewrite H. apply Z.mod_pos_bound. lia.
Qed.

(** X6: clearing a mask undoes applying it, whatever the bits were
    before: [clearMask(applyMask(bits, mask), mask)] is
    [clearMask(bits, mask)], and no bit of the mask is left set. *)
Theorem clearMask_after_applyMask (bits mask : Z) :
  clearMask (applyMask bits mask) mask = clearMask bits mask /\
  checkMask (clearMask bits mask) mask = false.
Proof.
  split.
  - apply int32_ext; try apply clearMask_range.
    intros i Hi. rewrite !testbit_clearMask, testbit_applyMask by exact Hi.
    destruct (Z.testbit bits i), (Z.testbit mask i); reflexivity.
  - apply checkMask_false_iff. intros i Hi.
    rewrite testbit_clearMask by exact Hi.
    destruct (Z.testbit bits i), (Z.testbit mask i); reflexivity.
Qed.

(** X7: [clearMask] returns the signed reading of the pattern
    [bits AND (NOT mask)]: it is negative exactly when bit 31 is set in
    [bits] and clear in [mask], and on a bitfield a following [>>> 0]
    gives the unsigned pattern. *)
Theorem clearMask_signed_reading (bits mask : Z) :
  clearMask bits mask = Js.ToInt32 (Z.land bits (Z.lnot mask)) /\
  (clearMask bits mask < 0 <->
   Z.testbit bits 31 = true /\ Z.testbit mask 31 = false) /\
  (BitField bits ->
   (clearMask bits mask) .>>> 0 = Z.land bits (Z.lnot mask)).
Proof.
  split; [apply clearMask_exact |]. split.
  - pose proof (clearMask_range bits mask) as Hr.
    rewrite (Z.bits_iff_neg (clearMask bits mask) 32).
    + rewrite testbit_clearMask_high by lia.
      rewrite andb_true_iff, negb_true_iff. reflexivity.
    + destruct (Z.eq_dec (clearMask bits mask) 0) as [-> | Hnz]; [simpl; lia |].
      apply Z.log2_lt_pow2; lia.
  - intros Hb. rewrite ushr_0, clearMask_low32.
    pose proof (land_BitField bits (Z.lnot mask) Hb) as Hl.
    unfold BitField, W in Hl. apply Z.mod_small. exact Hl.
Qed.

Lemma clearMask_signed_reading_witness :
  BitField 4294967295 /\
  (clearMask 4294967295 1) .>>> 0 = Z.land 4294967295 (Z.lnot 1).
Proof.
  assert (H : BitField 4294967295) by (unfold BitField, W; lia).
  split; [exact H | exact (proj2 (proj2 (clearMask_signed_reading 4294967295 1)) H)].
Defined.

(** X8: on a bitfield, toggling with [NONE] changes nothing and toggling
    with [ALL] gives the complement, [ALL - bits]. *)
Theorem toggleMask_NONE_ALL (bits : Z) :
  BitField bits ->
  toggleMask bits NONE = bits /\ toggleMask bits ALL = ALL - bits.
Proof.
  intros Hb. split.
  - apply BitField_ext; [apply toggleMask_BitField | exact Hb |].
    intros i Hi. rewrite testbit_toggleMask by exact Hi.
    unfold NONE. rewrite Z.bits_0. apply xorb_false_r.
  - apply BitField_ext; [apply toggleMask_BitField | |].
    + unfold BitField, W in *. change ALL with 4294967295. lia.
    + intros i Hi. rewrite testbit_toggleMask by exact Hi.
      change (Z.testbit ALL i) with (Z.testbit (Z.ones 32) i).
      rewrite Z.ones_spec_low by lia.
      replace (ALL - bits) with (Z.lnot bits + 1 * 2 ^ 32)
        by (unfold Z.lnot; change ALL with 4294967295; lia).
      rewrite <- (testbit_mod32 (Z.lnot bits + 1 * 2 ^ 32)) by exact Hi.
      rewrite Z.mod_add, testbit_mod32, Z.lnot_spec by lia.
      apply xorb_true_r.
Qed.

Lemma toggleMask_NONE_ALL_witness :
  BitField 10 /\ toggleMask 10 NONE = 10 /\ toggleMask 10 ALL = ALL - 10.
Proof.
  assert (H : BitField 10) by (unfold BitField, W; lia).
  split; [exact H | exact (toggleMask_NONE_ALL 10 H)].
Defined.

(** X9: after [applyMask(bits, mask)], [checkMask] with the same mask is
    true unless the mask selects no bit. *)
Theorem checkMask_after_applyMask (bits mask : Z) :
  checkMask (applyMask bits mask) mask = negb (mask mod 2 ^ 32 =? 0).
Proof.
  destruct (Z.eqb_spec (mask mod 2 ^ 32) 0) as [Hz | Hnz]; cbn [negb].
  - apply checkMask_false_iff. intros i Hi.
    rewrite <- (testbit_mod32 mask) by exact Hi.
    rewrite Hz, Z.bits_0. apply andb_false_r.
  - destruct (checkMask (applyMask bits mask) mask) eqn:Hcheck; [reflexivity |].
    exfalso. apply Hnz. rewrite <- (Z.mod_0_l (2 ^ 32)) by lia.
    apply mod32_ext. intros i Hi. rewrite Z.bits_0.
    pose proof (proj1 (checkMask_false_iff _ _) Hcheck i Hi) as Hi0.
    rewrite testbit_applyMask in Hi0 by exact Hi.
    destruct (Z.testbit mask i); [| reflexivity].
    rewrite orb_true_r in Hi0. discriminate.
Qed.

(** ** Properties of the single-bit operations *)

Section SingleBitOps.

Lemma bitMask_index (i : Z) : bitMask i = bitMask (i mod 32).
Proof.
  rewrite bitMask_mod32. symmetry. apply bitMask_pow2, index_mod32_range.
Qed.

Lemma getBit_mod32 (bits i : Z) : getBit bits i = Z.testbit bits (i mod 32).
Proof.
  unfold getBit. rewrite bitMask_index.
  apply (getBit_testbit bits (i mod 32)), index_mod32_range.
Qed.

Lemma testbit_bitMask (i j : Z) :
  0 <= j < 32 -> Z.testbit (bitMask i) j = (j =? i mod 32).
Proof.
  intros Hj. pose proof (index_mod32_range i).
  rewrite bitMask_mod32. apply testbit_pow2; lia.
Qed.

Lemma testbit_setBitOn (bits i j : Z) :
  0 <= j < 32 ->
  Z.testbit (setBitOn bits i) j = (j =? i mod 32) || Z.testbit bits j.
Proof.
  intros Hj. unfold setBitOn.
  rewrite testbit_applyMask, testbit_bitMask by exact Hj. apply orb_comm.
Qed.

Lemma testbit_setBitOff (bits i j : Z) :
  0 <= j < 32 ->
  Z.testbit (setBitOff bits i) j = negb (j =? i mod 32) && Z.testbit bits j.
Proof.
  intros Hj. unfold setBitOff.
  rewrite testbit_clearMask, testbit_bitMask by exact Hj. apply andb_comm.
Qed.

Lemma testbit_toggleBit (bits i j : Z) :
  0 <= j < 32 ->
  Z.testbit (toggleBit bits i) j = xorb (j =? i mod 32) (Z.testbit bits j).
Proof.
  intros Hj. unfold toggleBit.
  rewrite testbit_toggleMask, testbit_bitMask by exact Hj. apply xorb_comm.
Qed.

End SingleBitOps.

(** X10: [getBit] reads the bit at the index taken modulo 32, on every
    integer, a negative one included (its two's complement pattern). *)
Theorem getBit_reads_bit (bits index : Z) :
  getBit bits index = Z.testbit bits (index mod 32) /\
  getBit bits (index + 32) = getBit bits index.
Proof.
  split; [apply getBit_mod32 |].
  rewrite !getBit_mod32. f_equal.
  replace (index + 32) with (index + 1 * 32) by lia. apply Z.mod_add. lia.
Qed.

(** X11: after [setBitOn(bits, i)] the bit [i] reads true and every other
    bit reads as before. *)
Theorem getBit_after_setBitOn (bits i j : Z) :
  getBit (setBitOn bits i) j = (j mod 32 =? i mod 32) || getBit bits j.
Proof.
  rewrite !getBit_mod32. apply testbit_setBitOn, index_mod32_range.
Qed.

(** X12: after [setBitOff(bits, i)] the bit [i] reads false and every
    other bit reads as before, also when the result is a negative
    number. *)
Theorem getBit_after_setBitOff (bits i j : Z) :
  getBit (setBitOff bits i) j = negb (j mod 32 =? i mod 32) && getBit bits j.
Proof.
  rewrite !getBit_mod32. apply testbit_setBitOff, index_mod32_range.
Qed.

(** X13: [toggleBit] flips the bit [i] and leaves the others; toggling
    the same bit twice gives the unsigned 32-bit pattern of the input,
    which on a bitfield is the input. *)
Theorem toggleBit_flips (bits i : Z) :
  (forall j, getBit (toggleBit bits i) j
             = xorb (j mod 32 =? i mod 32) (getBit bits j)) /\
  toggleBit (toggleBit bits i) i = bits mod 2 ^ 32 /\
  (BitField bits -> toggleBit (toggleBit bits i) i = bits).
Proof.
  assert (Htwice : toggleBit (toggleBit bits i) i = bits mod 2 ^ 32).
  { apply BitField_ext; [apply toggleMask_BitField | apply BitField_mod |].
    intros j Hj. rewrite !testbit_toggleBit, testbit_mod32 by exact Hj.
    rewrite <- xorb_assoc, xorb_nilpotent. apply xorb_false_l. }
  split; [| split].
  - intros j. rewrite !getBit_mod32.
    apply testbit_toggleBit, index_mod32_range.
  - exact Htwice.
  - intros Hb. rewrite Htwice. unfold BitField, W in Hb.
    apply Z.mod_small. exact Hb.
Qed.

Lemma toggleBit_flips_witness :
  BitField 5 /\ toggleBit (toggleBit 5 1) 1 = 5.
Proof.
  assert (H : BitField 5) by (unfold BitField, W; lia).
  split; [exact H | exact (proj2 (proj2 (toggleBit_flips 5 1)) H)].
Defined.

(** X14: after [setBit(bits, i, value)] the bit [i] reads [value] and
    every other bit reads as before. *)
Theorem getBit_after_setBit (bits i j : Z) (value : bool) :
  getBit (setBit bits i value) j
  = if j mod 32 =? i mod 32 then value else getBit bits j.
Proof.
  pose proof (index_mod32_range j) as Hj.
  unfold setBit. rewrite !getBit_mod32. destruct value.
  - rewrite testbit_setBitOn by exact Hj.
    destruct (j mod 32 =? i mod 32); reflexivity.
  - rewrite testbit_setBitOff by exact Hj.
    destruct (j mod 32 =? i mod 32); reflexivity.
Qed.

(** ** Further properties of [countBits] *)

Section PopCount.

Lemma set_bits_below_ext (n : nat) (a b : Z) :
  (forall i, 0 <= i < Z.of_nat n -> Z.testbit a i = Z.testbit b i) ->
  set_bits_below n a = set_bits_below n b.
Proof.
  induction n as [| n IH]; intros H; [reflexivity |].
  cbn [set_bits_below]. rewrite (H (Z.of_nat n)) by lia.
  rewrite IH; [reflexivity |]. intros i Hi. apply H. lia.
Qed.

Lemma set_bits_below_le (n : nat) (v : Z) : set_bits_below n v <= Z.of_nat n.
Proof.
  induction n as [| n IH]; [simpl; lia |].
  cbn [set_bits_below]. destruct (Z.testbit v (Z.of_nat n)); simpl Z.b2z; lia.
Qed.

(** The loop counts the set positions of the 32-bit pattern of any
    integer. *)
Lemma countBits_any (v : Z) : countBits v = Some (popcount v).
Proof.
  unfold countBits, popcount. rewrite (countBits_loop_S 31). cbn [snd fst].
  destruct (Z.eqb_spec v 0) as [-> | Hnz]; [reflexivity |].
  unfold countBits_body. cbn [fst snd].
  rewrite (countBits_loop_spec 31) by (try lia; apply ushr_1_below).
  rewrite and_1, ushr_1, (set_bits_below_shift 31 v). f_equal.
  rewrite Z.add_0_l. f_equal. apply set_bits_below_ext. intros i Hi.
  change 2 with (2 ^ 1). rewrite !Z.div_pow2_bits by lia.
  apply testbit_mod32. lia.
Qed.

(** Setting one clear position adds one to the count. *)
Lemma set_bits_below_one_more (n : nat) (a b p : Z) :
  0 <= p < Z.of_nat n ->
  Z.testbit a p = false -> Z.testbit b p = true ->
  (forall i, 0 <= i < Z.of_nat n -> i <> p -> Z.testbit b i = Z.testbit a i) ->
  set_bits_below n b = set_bits_below n a + 1.
Proof.
  induction n as [| n IH]; intros Hp Ha Hb Hrest; [lia |].
  cbn [set_bits_below].
  destruct (Z.eq_dec p (Z.of_nat n)) as [-> | Hne].
  - rewrite Ha, Hb. simpl Z.b2z.
    rewrite (set_bits_below_ext n b a); [lia |].
    intros i Hi. apply Hrest; lia.
  - rewrite (Hrest (Z.of_nat n)) by lia.
    rewrite IH; [lia | lia | exact Ha | exact Hb |].
    intros i Hi Hip. apply Hrest; lia.
Qed.

Lemma set_bits_below_complement (n : nat) (a b : Z) :
  (forall i, 0 <= i < Z.of_nat n -> Z.testbit b i = negb (Z.testbit a i)) ->
  set_bits_below n b = Z.of_nat n - set_bits_below n a.
Proof.
  induction n as [| n IH]; intros H; [reflexivity |].
  cbn [set_bits_below]. rewrite (H (Z.of_nat n)) by lia.
  rewrite IH by (intros i Hi; apply H; lia).
  destruct (Z.testbit a (Z.of_nat n)); simpl Z.b2z; simpl negb; lia.
Qed.

Lemma set_bits_below_disjoint (n : nat) (a b c : Z) :
  (forall i, 0 <= i < Z.of_nat n ->
     Z.testbit a i && Z.testbit b i = false /\
     Z.testbit c i = Z.testbit a i || Z.testbit b i) ->
  set_bits_below n c = set_bits_below n a + set_bits_below n b.
Proof.
  induction n as [| n IH]; intros H; [reflexivity |].
  cbn [set_bits_below]. destruct (H (Z.of_nat n) ltac:(lia)) as [Hd Hc].
  rewrite Hc, IH by (intros i Hi; apply H; lia).
  destruct (Z.testbit a (Z.of_nat n)), (Z.testbit b (Z.of_nat n));
    simpl in *; try discriminate; lia.
Qed.

End PopCount.

(** X15: [countBits] returns on every integer, and counts the set
    positions of its 32-bit two's complement pattern: the result lies
    between 0 and [W], and a negative number counts like the bitfield
    with the same pattern. *)
Theorem countBits_any_integer (value : Z) :
  countBits value = Some (popcount value) /\
  0 <= popcount value <= W /\
  countBits value = countBits (value mod 2 ^ 32).
Proof.
  split; [apply countBits_any |]. split.
  - unfold popcount, W. split; [apply set_bits_below_nonneg |].
    apply (set_bits_below_le 32).
  - rewrite !countBits_any. f_equal. unfold popcount.
    apply set_bits_below_ext. intros i Hi. symmetry. apply testbit_mod32. lia.
Qed.

(** X16: turning a clear bit on adds one to [countBits], turning a set
    bit off removes one, and toggling a bit moves the count by one in
    the matching direction. *)
Theorem countBits_single_bit_change (bits i : Z) :
  (getBit bits i = false ->
   countBits (setBitOn bits i) = Some (popcount bits + 1)) /\
  (getBit bits i = true ->
   countBits (setBitOff bits i) = Some (popcount bits - 1)) /\
  countBits (toggleBit bits i)
  = Some (popcount bits + (if getBit bits i then -1 else 1)).
Proof.
  pose proof (index_mod32_range i) as Hi.
  assert (Hon : forall x, Z.testbit bits (i mod 32) = false ->
            Z.testbit x (i mod 32) = true ->
            (forall j, 0 <= j < 32 -> j <> i mod 32 ->
               Z.testbit x j = Z.testbit bits j) ->
            countBits x = Some (popcount bits + 1)).
  { intros x Hclr Hset Hrest. rewrite countBits_any. f_equal.
    apply (set_bits_below_one_more 32 bits x (i mod 32)); try assumption; lia. }
  assert (Hoff : forall x, Z.testbit bits (i mod 32) = true ->
            Z.testbit x (i mod 32) = false ->
            (forall j, 0 <= j < 32 -> j <> i mod 32 ->
               Z.testbit x j = Z.testbit bits j) ->
            countBits x = Some (popcount bits - 1)).
  { intros x Hset Hclr Hrest. rewrite countBits_any. f_equal.
    pose proof (set_bits_below_one_more 32 x bits (i mod 32) ltac:(lia) Hclr Hset) as H.
    unfold popcount. rewrite H; [lia |].
    intros j Hj Hne. symmetry. apply Hrest; assumption. }
  rewrite !getBit_mod32. split; [| split].
  - intros Hclr. apply Hon; [exact Hclr | |].
    + rewrite testbit_setBitOn, Z.eqb_refl by exact Hi. reflexivity.
    + intros j Hj Hne. rewrite testbit_setBitOn by exact Hj.
      destruct (Z.eqb_spec j (i mod 32)); [contradiction | reflexivity].
  - intros Hset. apply Hoff; [exact Hset | |].
    + rewrite testbit_setBitOff, Z.eqb_refl by exact Hi. reflexivity.
    + intros j Hj Hne. rewrite testbit_setBitOff by exact Hj.
      destruct (Z.eqb_spec j (i mod 32)); [contradiction | reflexivity].
  - assert (Hrest : forall j, 0 <= j < 32 -> j <> i mod 32 ->
              Z.testbit (toggleBit bits i) j = Z.testbit bits j).
    { intros j Hj Hne. rewrite testbit_toggleBit by exact Hj.
      destruct (Z.eqb_spec j (i mod 32)); [contradiction | reflexivity]. }
    assert (Hat : Z.testbit (toggleBit bits i) (i mod 32)
                  = negb (Z.testbit bits (i mod 32))).
    { rewrite testbit_toggleBit, Z.eqb_refl by exact Hi. reflexivity. }
    destruct (Z.testbit bits (i mod 32)) eqn:Hb.
    + apply Hoff; [reflexivity | exact Hat | exact Hrest].
    + apply Hon; [reflexivity | exact Hat | exact Hrest].
Qed.

Lemma countBits_single_bit_change_witness :
  getBit 5 1 = false /\ countBits (setBitOn 5 1) = Some (popcount 5 + 1) /\
  getBit 5 0 = true /\ countBits (setBitOff 5 0) = Some (popcount 5 - 1).
Proof.
  assert (H1 : getBit 5 1 = false) by reflexivity.
  assert (H0 : getBit 5 0 = true) by reflexivity.
  split; [exact H1 |].
  split; [exact (proj1 (countBits_single_bit_change 5 1) H1) |].
  split; [exact H0 |].
  exact (proj1 (proj2 (countBits_single_bit_change 5 0)) H0).
Defined.

(** X17: the complement of a value has [W] minus as many set bits:
    [countBits(toggleMask(bits, ALL))] is [W - countBits(bits)]. *)
Theorem countBits_complement (bits : Z) :
  countBits (toggleMask bits ALL) = Some (W - popcount bits).
Proof.
  rewrite countBits_any. f_equal. unfold popcount, W.
  apply (set_bits_below_complement 32). intros i Hi.
  rewrite testbit_toggleMask by lia.
  change (Z.testbit ALL i) with (Z.testbit (Z.ones 32) i).
  rewrite Z.ones_spec_low by lia. apply xorb_true_r.
Qed.

(** X18: for every index, [bitMask] has exactly one bit set:
    [isSingleBit] accepts it and [countBits] is 1. *)
Theorem bitMask_single_bit (i : Z) :
  isSingleBit (bitMask i) = true /\ countBits (bitMask i) = Some 1.
Proof.
  pose proof (index_mod32_range i) as Hi.
  assert (Hbf : BitField (bitMask i)).
  { rewrite bitMask_index. apply bitMask_BitField. exact Hi. }
  assert (Hone : bitMask i <> 0 /\ Z.land (bitMask i) (bitMask i - 1) = 0).
  { rewrite bitMask_mod32. split.
    - apply Z.pow_nonzero; lia.
    - change (2 ^ (i mod 32) - 1) with (Z.pred (2 ^ (i mod 32))).
      rewrite <- Z.ones_equiv, Z.land_ones by lia. apply Z.mod_same.
      apply Z.pow_nonzero; lia. }
  split.
  - apply isSingleBit_spec; assumption.
  - rewrite countBits_any. f_equal. unfold popcount.
    apply (one_bit_iff 32); assumption.
Qed.

(** X19: when two values share no set bit, the count of their union is
    the sum of their counts. *)
Theorem countBits_disjoint_union (bits mask : Z) :
  checkMask bits mask = false ->
  countBits (applyMask bits mask) = Some (popcount bits + popcount mask).
Proof.
  intros Hdis. rewrite countBits_any. f_equal. unfold popcount.
  apply (set_bits_below_disjoint 32). intros i Hi. split.
  - apply (proj1 (checkMask_false_iff bits mask) Hdis). lia.
  - apply testbit_applyMask. lia.
Qed.

Lemma countBits_disjoint_union_witness :
  checkMask 5 10 = false /\
  countBits (applyMask 5 10) = Some (popcount 5 + popcount 10).
Proof.
  assert (H : checkMask 5 10 = false) by reflexivity.
  split; [exact H | exact (countBits_disjoint_union 5 10 H)].
Defined.

(** ** Further properties of [toBinaryString] *)

Section BinaryStringMore.

Lemma toBinaryString_eq_any (bits : Z) (length : option Z) :
  toBinaryString bits length
  = String.append
      (string_repeat "0" (Z.to_nat (default 32 length) - digit_count bits))
      (Number_toString_2 bits).
Proof.
  destruct length as [n |]; [apply toBinaryString_eq |].
  change (toBinaryString bits None) with (toBinaryString bits (Some 32)).
  apply toBinaryString_eq.
Qed.

Lemma binary_string_append (s t : string) :
  binary_string (String.append s t) = binary_string s && binary_string t.
Proof.
  induction s as [| c s IH]; [reflexivity |].
  change (String.append (String c s) t) with (String c (String.append s t)).
  cbn [binary_string]. rewrite IH. apply andb_assoc.
Qed.

Lemma binary_string_zeros (n : nat) : binary_string (string_repeat "0" n) = true.
Proof.
  induction n as [| n IH]; [reflexivity |].
  change (string_repeat "0" (S n)) with (String "0" (string_repeat "0" n)).
  cbn [binary_string]. rewrite IH. reflexivity.
Qed.

Lemma binary_string_digits (p : positive) (acc : string) :
  binary_string acc = true -> binary_string (binary_digits p acc) = true.
Proof.
  revert acc. induction p as [p IH | p IH |]; intros acc Hacc;
    cbn [binary_digits].
  - apply IH. cbn [binary_string]. rewrite Hacc. reflexivity.
  - apply IH. cbn [binary_string]. rewrite Hacc. reflexivity.
  - cbn [binary_string]. rewrite Hacc. reflexivity.
Qed.

Lemma binary_string_toBinaryString (bits : Z) (length : option Z) :
  0 <= bits -> binary_string (toBinaryString bits length) = true.
Proof.
  intros Hb. rewrite toBinaryString_eq_any, binary_string_append.
  rewrite binary_string_zeros. destruct bits as [| p | p]; [reflexivity | | lia].
  apply binary_string_digits. reflexivity.
Qed.

Lemma binary_value_toBinaryString (bits : Z) (length : option Z) :
  0 <= bits -> binary_value (toBinaryString bits length) = bits.
Proof.
  intros Hb. rewrite toBinaryString_eq_any, binary_value_zeros.
  apply binary_value_toString. exact Hb.
Qed.

End BinaryStringMore.

(** X20: for a non-negative number and any length, given or omitted,
    reading the output of [toBinaryString] back in base 2 gives the
    number: no digit is ever lost, and two different numbers never
    render alike. *)
Theorem toBinaryString_round_trip (bits : Z) (length : option Z) :
  0 <= bits ->
  binary_value (toBinaryString bits length) = bits /\
  forall other : Z,
    0 <= other ->
    toBinaryString other length = toBinaryString bits length -> other = bits.
Proof.
  intros Hb. split; [apply binary_value_toBinaryString; exact Hb |].
  intros other Ho Heq.
  rewrite <- (binary_value_toBinaryString other length Ho), Heq.
  apply binary_value_toBinaryString. exact Hb.
Qed.

Lemma toBinaryString_round_trip_witness :
  0 <= 255 /\ binary_value (toBinaryString 255 (Some 4)) = 255.
Proof.
  assert (H : 0 <= 255) by lia.
  split; [exact H | exact (proj1 (toBinaryString_round_trip 255 (Some 4) H))].
Defined.

(** X21: for a non-negative number the output of [toBinaryString] holds
    only the digits 0 and 1, and it is never shorter than the requested
    length. *)
Theorem toBinaryString_digits_only (bits : Z) (length : option Z) :
  0 <= bits ->
  binary_string (toBinaryString bits length) = true /\
  (Z.to_nat (default 32%Z length) <= String.length (toBinaryString bits length))%nat.
Proof.
  intros Hb. split; [apply binary_string_toBinaryString; exact Hb |].
  rewrite toBinaryString_eq_any, length_append, length_string_repeat_0.
  fold (digit_count bits). lia.
Qed.

Lemma toBinaryString_digits_only_witness :
  0 <= 5 /\ binary_string (toBinaryString 5 None) = true.
Proof.
  assert (H : 0 <= 5) by lia.
  split; [exact H | exact (proj1 (toBinaryString_digits_only 5 None H))].
Defined.

(** X22: a negative number (such as [clearMask] returns when bit 31
    survives) is not rendered as its 32-bit pattern: the output is the
    digits of its absolute value behind a minus sign, and the padding
    zeros come before the sign. *)
Theorem toBinaryString_negative (bits : Z) (length : option Z) :
  bits < 0 ->
  toBinaryString bits length
  = String.append
      (string_repeat "0" (Z.to_nat (default 32 length) - digit_count bits))
      (String "-" (Number_toString_2 (- bits))) /\
  digit_count bits = S (digit_count (- bits)) /\
  binary_string (toBinaryString bits length) = false.
Proof.
  intros Hneg. destruct bits as [| p | p]; try lia.
  assert (Heq : Number_toString_2 (Z.neg p)
                = String "-" (Number_toString_2 (- Z.neg p))) by reflexivity.
  split; [| split].
  - rewrite toBinaryString_eq_any, Heq. reflexivity.
  - unfold digit_count. rewrite Heq. reflexivity.
  - rewrite toBinaryString_eq_any, binary_string_append, Heq.
    rewrite binary_string_zeros. reflexivity.
Qed.

Lemma toBinaryString_negative_witness :
  -1 < 0 /\ toBinaryString (-1) (Some 4) = "00-1"%string.
Proof.
  assert (H : -1 < 0) by lia.
  split; [exact H | exact (proj1 (toBinaryString_negative (-1) (Some 4) H))].
Defined.

(** ** [toFormattedBinaryString] *)

Section Grouping.

Lemma append_cons (c : ascii) (s t : string) :
  String.append (String c s) t = String c (String.append s t).
Proof. reflexivity. Qed.

Lemma append_empty_r (s : string) : String.append s EmptyString = s.
Proof.
  induction s as [| c s IH]; [reflexivity |].
  rewrite append_cons, IH. reflexivity.
Qed.

Lemma append_assoc (a b c : string) :
  String.append (String.append a b) c = String.append a (String.append b c).
Proof.
  induction a as [| x a IH]; [reflexivity |].
  rewrite !append_cons, IH. reflexivity.
Qed.

Lemma flatten_close_run (r : string * list string) :
  flatten (close_run r) = String.append (fst r) (flatten (snd r)).
Proof. destruct r as [[| c h] t]; reflexivity. Qed.

Lemma group_quads_eq (x : string) : group_quads x = join " " (runs 4 x).
Proof.
  unfold group_quads, match_runs, runs.
  destruct (close_run (scan_runs 4 4 x)); reflexivity.
Qed.

Lemma group_digits_eq (s : string) :
  group_digits s = join " - " (map group_quads (runs 8 s)).
Proof.
  unfold group_digits, match_runs, runs.
  destruct (close_run (scan_runs 8 8 s)); reflexivity.
Qed.

Lemma join_cons (separator item next : string) (rest : list string) :
  join separator (item :: next :: rest)
  = String.append item (String.append separator (join separator (next :: rest))).
Proof. reflexivity. Qed.

(** The runs of a string without line terminators are its consecutive
    pieces. *)
Lemma scan_runs_flatten (n : nat) (s : string) :
  one_line s = true ->
  forall room,
    String.append (fst (scan_runs n room s)) (flatten (snd (scan_runs n room s))) = s.
Proof.
  induction s as [| c s IH]; intros Hs room; [reflexivity |].
  cbn [one_line] in Hs. apply andb_true_iff in Hs as [Hc Hs].
  apply negb_true_iff in Hc. cbn [scan_runs]. rewrite Hc.
  destruct room as [| [| room]]; cbn [fst snd]; rewrite append_cons.
  - rewrite flatten_close_run. f_equal. apply IH. exact Hs.
  - rewrite flatten_close_run. f_equal. apply IH. exact Hs.
  - f_equal. apply IH. exact Hs.
Qed.

Lemma runs_flatten (n : nat) (s : string) :
  one_line s = true -> flatten (runs n s) = s.
Proof.
  intros Hs. unfold runs. rewrite flatten_close_run.
  apply scan_runs_flatten. exact Hs.
Qed.

Lemma binary_not_terminator (c : ascii) :
  Ascii.eqb c "0" || Ascii.eqb c "1" = true -> is_line_terminator c = false.
Proof.
  intros H. apply orb_true_iff in H as [H | H];
    apply Ascii.eqb_eq in H; subst c; reflexivity.
Qed.

Lemma binary_not_separator (c : ascii) :
  Ascii.eqb c "0" || Ascii.eqb c "1" = true ->
  Ascii.eqb c " " || Ascii.eqb c "-" = false.
Proof.
  intros H. apply orb_true_iff in H as [H | H];
    apply Ascii.eqb_eq in H; subst c; reflexivity.
Qed.

Lemma binary_one_line (s : string) :
  binary_string s = true -> one_line s = true.
Proof.
  induction s as [| c s IH]; intros H; [reflexivity |].
  cbn [binary_string] in H. apply andb_true_iff in H as [Hc Hs].
  cbn [one_line]. rewrite (binary_not_terminator c Hc), IH by exact Hs.
  reflexivity.
Qed.

Lemma Forall_close_run (P : string -> Prop) (r : string * list string) :
  P (fst r) -> Forall P (snd r) -> Forall P (close_run r).
Proof.
  destruct r as [[| c h] t]; cbn [close_run fst snd]; intros Hh Ht;
    [exact Ht | constructor; assumption].
Qed.

(** The runs of a string of digits are strings of digits. *)
Lemma scan_runs_binary (n : nat) (s : string) :
  binary_string s = true ->
  forall room,
    binary_string (fst (scan_runs n room s)) = true /\
    Forall (fun x => binary_string x = true) (snd (scan_runs n room s)).
Proof.
  induction s as [| c s IH]; intros Hs room; [split; [reflexivity | constructor] |].
  cbn [binary_string] in Hs. apply andb_true_iff in Hs as [Hc Hs].
  cbn [scan_runs]. rewrite (binary_not_terminator c Hc).
  assert (Hfull : binary_string (String c EmptyString) = true /\
                  Forall (fun x => binary_string x = true)
                         (close_run (scan_runs n n s))).
  { split; [cbn [binary_string]; rewrite Hc; reflexivity |].
    destruct (IH Hs n) as [Hh Ht]. apply Forall_close_run; assumption. }
  destruct room as [| [| room]]; cbn [fst snd]; try exact Hfull.
  destruct (IH Hs (S room)) as [Hh Ht]. split; [| exact Ht].
  cbn [binary_string]. rewrite Hc, Hh. reflexivity.
Qed.

Lemma runs_binary (n : nat) (s : string) :
  binary_string s = true ->
  Forall (fun x => binary_string x = true) (runs n s).
Proof.
  intros Hs. destruct (scan_runs_binary n s Hs n) as [Hh Ht].
  apply Forall_close_run; assumption.
Qed.

Lemma strip_append (a b : string) :
  strip_separators (String.append a b)
  = String.append (strip_separators a) (strip_separators b).
Proof.
  induction a as [| c a IH]; [reflexivity |].
  change (String.append (String c a) b) with (String c (String.append a b)).
  cbn [strip_separators]. rewrite IH.
  destruct (Ascii.eqb c " " || Ascii.eqb c "-"); reflexivity.
Qed.

Lemma strip_binary (s : string) :
  binary_string s = true -> strip_separators s = s.
Proof.
  induction s as [| c s IH]; intros H; [reflexivity |].
  cbn [binary_string] in H. apply andb_true_iff in H as [Hc Hs].
  cbn [strip_separators]. rewrite (binary_not_separator c Hc), IH by exact Hs.
  reflexivity.
Qed.

(** Stripping a joined list: the separator goes, the items stay. *)
Lemma strip_join (separator : string) (f : string -> string)
      (items : list string) :
  strip_separators separator = EmptyString ->
  Forall (fun x => strip_separators (f x) = x) items ->
  strip_separators (join separator (map f items)) = flatten items.
Proof.
  intros Hsep Hitems. induction Hitems as [| x rest Hx Hrest IH]; [reflexivity |].
  destruct rest as [| y rest].
  - cbn [map join flatten fold_right]. rewrite Hx, append_empty_r. reflexivity.
  - cbn [map] in *. rewrite join_cons, !strip_append, Hsep, Hx, IH.
    reflexivity.
Qed.

Lemma strip_group_quads (x : string) :
  binary_string x = true -> strip_separators (group_quads x) = x.
Proof.
  intros Hx. rewrite group_quads_eq.
  rewrite <- (map_id (runs 4 x)) at 1.
  rewrite (strip_join " " id); [| reflexivity |].
  - apply runs_flatten, binary_one_line, Hx.
  - eapply Forall_impl; [apply runs_binary; exact Hx |].
    intros q Hq. apply strip_binary. exact Hq.
Qed.

Lemma strip_group_digits (s : string) :
  binary_string s = true -> strip_separators (group_digits s) = s.
Proof.
  intros Hs. rewrite group_digits_eq.
  rewrite (strip_join " - " group_quads); [| reflexivity |].
  - apply runs_flatten, binary_one_line, Hs.
  - eapply Forall_impl; [apply runs_binary; exact Hs |].
    intros x Hx. apply strip_group_quads. exact Hx.
Qed.

End Grouping.

(** X23: the grouping of [toFormattedBinaryString] only inserts spaces
    and dashes: for a non-negative number, removing them from the
    formatted string gives back the output of [toBinaryString], and so
    the number. *)
Theorem toFormattedBinaryString_strip (bits : Z) (length : option Z) :
  0 <= bits ->
  strip_separators (toFormattedBinaryString bits length)
  = toBinaryString bits length /\
  binary_value (strip_separators (toFormattedBinaryString bits length)) = bits.
Proof.
  intros Hb.
  assert (H : strip_separators (toFormattedBinaryString bits length)
              = toBinaryString bits length).
  { apply strip_group_digits, binary_string_toBinaryString, Hb. }
  split; [exact H |]. rewrite H.
  apply binary_value_toBinaryString. exact Hb.
Qed.

Lemma toFormattedBinaryString_strip_witness :
  0 <= 42 /\
  strip_separators (toFormattedBinaryString 42 (Some 16))
  = toBinaryString 42 (Some 16).
Proof.
  assert (H : 0 <= 42) by lia.
  split; [exact H | exact (proj1 (toFormattedBinaryString_strip 42 (Some 16) H))].
Defined.

Section Layout.

Lemma one_line_append (a b : string) :
  one_line (String.append a b) = one_line a && one_line b.
Proof.
  induction a as [| c a IH]; [reflexivity |].
  rewrite append_cons. cbn [one_line]. rewrite IH. apply andb_assoc.
Qed.

Lemma string_split (k : nat) (s : string) :
  (k <= String.length s)%nat ->
  exists a b, s = String.append a b /\ String.length a = k.
Proof.
  revert s. induction k as [| k IH]; intros s Hk.
  - exists EmptyString, s. split; reflexivity.
  - destruct s as [| c s]; [simpl in Hk; lia |].
    destruct (IH s ltac:(simpl in Hk; lia)) as (a & b & -> & Ha).
    exists (String c a), b. split; [reflexivity | simpl; lia].
Qed.

(** A string that fits in the room left is one run. *)
Lemma scan_runs_short (n : nat) (s : string) :
  one_line s = true ->
  forall room, (String.length s <= room)%nat -> scan_runs n room s = (s, []).
Proof.
  induction s as [| c s IH]; intros Hs room Hlen; [reflexivity |].
  cbn [one_line] in Hs. apply andb_true_iff in Hs as [Hc Hs].
  apply negb_true_iff in Hc. cbn [scan_runs]. rewrite Hc.
  cbn [String.length] in Hlen. destruct room as [| [| room]]; [lia | |].
  - destruct s as [| c' s]; [reflexivity | simpl in Hlen; lia].
  - rewrite (IH Hs (S room)) by lia. reflexivity.
Qed.

Lemma runs_short (n : nat) (s : string) :
  one_line s = true -> s <> EmptyString -> (String.length s <= n)%nat ->
  runs n s = [s].
Proof.
  intros Hs Hne Hlen. unfold runs. rewrite scan_runs_short by assumption.
  destruct s; [contradiction | reflexivity].
Qed.

(** A prefix that fills the room exactly is the first run. *)
Lemma scan_runs_full (n : nat) (a b : string) :
  one_line a = true ->
  forall room, String.length a = room -> (1 <= room)%nat ->
  scan_runs n room (String.append a b) = (a, runs n b).
Proof.
  induction a as [| c a IH]; intros Ha room Hlen Hroom; [simpl in Hlen; lia |].
  cbn [one_line] in Ha. apply andb_true_iff in Ha as [Hc Ha].
  apply negb_true_iff in Hc. rewrite append_cons. cbn [scan_runs]. rewrite Hc.
  cbn [String.length] in Hlen. destruct room as [| [| room]]; [lia | |].
  - destruct a as [| c' a]; [reflexivity | simpl in Hlen; lia].
  - rewrite (IH Ha (S room)) by lia. reflexivity.
Qed.

Lemma runs_full (n : nat) (a b : string) :
  one_line a = true -> String.length a = n -> (1 <= n)%nat ->
  runs n (String.append a b) = a :: runs n b.
Proof.
  intros Ha Hlen Hn. unfold runs at 1.
  rewrite (scan_runs_full n a b Ha n Hlen Hn).
  destruct a; [simpl in Hlen; lia | reflexivity].
Qed.

Lemma runs_nonempty (n : nat) (s : string) :
  one_line s = true -> s <> EmptyString -> runs n s <> [].
Proof.
  intros Hs Hne. destruct s as [| c s]; [contradiction |].
  cbn [one_line] in Hs. apply andb_true_iff in Hs as [Hc _].
  apply negb_true_iff in Hc. unfold runs. cbn [scan_runs]. rewrite Hc.
  destruct n as [| [| n]]; discriminate.
Qed.

Lemma join_cons_nonempty (separator item : string) (rest : list string) :
  rest <> [] ->
  join separator (item :: rest)
  = String.append item (String.append separator (join separator rest)).
Proof. destruct rest; [contradiction | reflexivity]. Qed.

(** The three shapes of the grouping. *)
Lemma group_digits_short (s : string) :
  one_line s = true -> s <> EmptyString -> (String.length s <= 4)%nat ->
  group_digits s = s.
Proof.
  intros Hs Hne Hlen. rewrite group_digits_eq, (runs_short 8) by (try assumption; lia).
  cbn [map join]. rewrite group_quads_eq, (runs_short 4) by assumption.
  reflexivity.
Qed.

Lemma group_quads_pair (a b : string) :
  one_line a = true -> one_line b = true ->
  String.length a = 4%nat -> b <> EmptyString -> (String.length b <= 4)%nat ->
  group_quads (String.append a b) = String.append a (String.append " " b).
Proof.
  intros Ha Hb Hla Hne Hlb.
  rewrite group_quads_eq, (runs_full 4 a b) by (try assumption; lia).
  rewrite (runs_short 4 b) by assumption. reflexivity.
Qed.

Lemma group_digits_pair (a b : string) :
  one_line a = true -> one_line b = true ->
  String.length a = 4%nat -> b <> EmptyString -> (String.length b <= 4)%nat ->
  group_digits (String.append a b) = String.append a (String.append " " b).
Proof.
  intros Ha Hb Hla Hne Hlb.
  assert (Hab : one_line (String.append a b) = true)
    by (rewrite one_line_append, Ha, Hb; reflexivity).
  rewrite group_digits_eq, (runs_short 8).
  - cbn [map join]. apply group_quads_pair; assumption.
  - exact Hab.
  - destruct a; [simpl in Hla; lia | discriminate].
  - rewrite length_append. lia.
Qed.

Lemma group_digits_octet (a b : string) :
  one_line a = true -> one_line b = true ->
  String.length a = 8%nat -> b <> EmptyString ->
  group_digits (String.append a b)
  = String.append (group_digits a) (String.append " - " (group_digits b)).
Proof.
  intros Ha Hb Hla Hne.
  assert (Hane : a <> EmptyString) by (destruct a; [simpl in Hla; lia | discriminate]).
  rewrite !group_digits_eq, (runs_full 8 a b) by (try assumption; lia).
  rewrite (runs_short 8 a) by (try assumption; lia).
  cbn [map]. rewrite join_cons_nonempty; [reflexivity |].
  intros Hnil. apply map_eq_nil in Hnil.
  exact (runs_nonempty 8 b Hb Hne Hnil).
Qed.

End Layout.

(** X24: the layout of [toFormattedBinaryString] for a non-negative
    number: up to four digits are returned as they are; a group of four
    followed by one to four digits is the two parts around a space (the
    last part is shorter when the length is not a multiple of 4); eight
    digits followed by more are the formatted eight, [" - "], and the
    formatted rest. *)
Theorem toFormattedBinaryString_layout (bits : Z) (length : option Z) :
  0 <= bits ->
  ((String.length (toBinaryString bits length) <= 4)%nat ->
   toFormattedBinaryString bits length = toBinaryString bits length) /\
  (forall a b : string,
     toBinaryString bits length = String.append a b ->
     String.length a = 4%nat -> b <> EmptyString -> (String.length b <= 4)%nat ->
     toFormattedBinaryString bits length
     = String.append a (String.append " " b)) /\
  (forall a b : string,
     toBinaryString bits length = String.append a b ->
     String.length a = 8%nat -> b <> EmptyString ->
     toFormattedBinaryString bits length
     = String.append (group_digits a) (String.append " - " (group_digits b))).
Proof.
  intros Hb.
  pose proof (binary_one_line _ (binary_string_toBinaryString bits length Hb)) as Hline.
  unfold toFormattedBinaryString. split; [| split].
  - intros Hlen. apply group_digits_short; [exact Hline | | exact Hlen].
    rewrite toBinaryString_eq_any. intros Hnil.
    apply (f_equal String.length) in Hnil. rewrite length_append in Hnil.
    pose proof (digit_count_positive bits) as Hd. unfold digit_count in Hd.
    simpl in Hnil. lia.
  - intros a b Heq Hla Hne Hlb. rewrite Heq in *.
    rewrite one_line_append in Hline. apply andb_true_iff in Hline as [Ha Hb'].
    apply group_digits_pair; assumption.
  - intros a b Heq Hla Hne. rewrite Heq in *.
    rewrite one_line_append in Hline. apply andb_true_iff in Hline as [Ha Hb'].
    apply group_digits_octet; assumption.
Qed.

Lemma toFormattedBinaryString_layout_witness :
  0 <= 5 /\
  toFormattedBinaryString 5 (Some 6) = String.append "0001" (String.append " " "01").
Proof.
  assert (H : 0 <= 5) by lia.
  assert (Heq : toBinaryString 5 (Some 6) = String.append "0001" "01") by reflexivity.
  assert (Hla : String.length "0001" = 4%nat) by reflexivity.
  assert (Hne : "01"%string <> EmptyString) by discriminate.
  assert (Hlb : (String.length "01" <= 4)%nat) by (simpl; lia).
  split; [exact H |].
  exact (proj1 (proj2 (toFormattedBinaryString_layout 5 (Some 6) H))
           "0001"%string "01"%string Heq Hla Hne Hlb).
Defined.

Section FormattedLength.

Ltac div_lia := Z.div_mod_to_equations; lia.

Lemma group_quads_length (x : string) :
  one_line x = true -> (1 <= String.length x <= 8)%nat ->
  Z.of_nat (String.length (group_quads x))
  = Z.of_nat (String.length x) + (Z.of_nat (String.length x) + 3) / 4 - 1.
Proof.
  intros Hx Hlen.
  assert (Hne : x <> EmptyString) by (destruct x; [simpl in Hlen; lia | discriminate]).
  destruct (Nat.le_gt_cases (String.length x) 4) as [Hle | Hgt].
  - rewrite group_quads_eq, (runs_short 4) by assumption.
    cbn [join]. div_lia.
  - destruct (string_split 4 x ltac:(lia)) as (a & b & -> & Ha).
    rewrite one_line_append in Hx. apply andb_true_iff in Hx as [Hoa Hob].
    rewrite length_append in Hlen, Hgt.
    rewrite group_quads_pair; try assumption; try lia.
    + rewrite !length_append. cbn [String.length]. div_lia.
    + destruct b; [simpl in Hgt; lia | discriminate].
Qed.

Lemma group_digits_length (n : nat) :
  forall s : string,
    (String.length s <= n)%nat -> one_line s = true -> s <> EmptyString ->
    Z.of_nat (String.length (group_digits s))
    = Z.of_nat (String.length s) + (Z.of_nat (String.length s) + 3) / 4 - 1
      + 2 * ((Z.of_nat (String.length s) + 7) / 8 - 1).
Proof.
  induction n as [n IH] using lt_wf_ind. intros s Hn Hs Hne.
  assert (Hpos : (1 <= String.length s)%nat)
    by (destruct s; [contradiction | simpl; lia]).
  destruct (Nat.le_gt_cases (String.length s) 8) as [Hle | Hgt].
  - rewrite group_digits_eq, (runs_short 8) by assumption.
    cbn [map join]. rewrite group_quads_length by (try assumption; lia).
    div_lia.
  - destruct (string_split 8 s ltac:(lia)) as (a & b & -> & Ha).
    rewrite one_line_append in Hs. apply andb_true_iff in Hs as [Hoa Hob].
    rewrite length_append in Hn, Hgt.
    assert (Hbne : b <> EmptyString)
      by (destruct b; [simpl in Hgt; lia | discriminate]).
    assert (Hane : a <> EmptyString)
      by (destruct a; [simpl in Ha; lia | discriminate]).
    rewrite group_digits_octet by assumption.
    rewrite !length_append. cbn [String.length].
    rewrite !Nat2Z.inj_add.
    rewrite (IH (String.length a) ltac:(lia) a) by (try assumption; lia).
    rewrite (IH (String.length b) ltac:(lia) b) by (try assumption; lia).
    rewrite Ha. div_lia.
Qed.

Lemma length_toBinaryString_default (bits : Z) :
  BitField bits -> String.length (toBinaryString bits None) = 32%nat.
Proof.
  unfold BitField, W. intros Hb.
  rewrite toBinaryString_eq_any, length_append, length_string_repeat_0.
  fold (digit_count bits). cbn [default].
  assert (digit_count bits <= 32)%nat
    by (apply (digit_count_le bits 32); [lia | lia | exact (proj2 Hb)]).
  change (Z.to_nat 32) with 32%nat. lia.
Qed.

End FormattedLength.

(** X25: the length of the formatted string, for a non-negative number
    whose plain rendering has [L] characters: [L] digits, a space inside
    every started group of eight that has more than four digits, and
    [" - "] between the groups of eight.  With the default length a
    bitfield is rendered in 45 characters. *)
Theorem toFormattedBinaryString_length (bits : Z) (length : option Z) :
  0 <= bits ->
  (let L := Z.of_nat (String.length (toBinaryString bits length)) in
   Z.of_nat (String.length (toFormattedBinaryString bits length))
   = L + (L + 3) / 4 - 1 + 2 * ((L + 7) / 8 - 1)) /\
  (BitField bits ->
   String.length (toFormattedBinaryString bits None) = 45%nat).
Proof.
  intros Hb.
  assert (Hany : forall len : option Z,
            Z.of_nat (String.length (toFormattedBinaryString bits len))
            = Z.of_nat (String.length (toBinaryString bits len))
              + (Z.of_nat (String.length (toBinaryString bits len)) + 3) / 4 - 1
              + 2 * ((Z.of_nat (String.length (toBinaryString bits len)) + 7) / 8 - 1)).
  { intros len. unfold toFormattedBinaryString.
    apply (group_digits_length (String.length (toBinaryString bits len)));
      [lia | apply binary_one_line, binary_string_toBinaryString, Hb |].
    rewrite toBinaryString_eq_any. intros Hnil.
    apply (f_equal String.length) in Hnil. rewrite length_append in Hnil.
    pose proof (digit_count_positive bits) as Hd. unfold digit_count in Hd.
    simpl in Hnil. lia. }
  split; [apply Hany |].
  intros Hbf. apply Nat2Z.inj. rewrite Hany.
  rewrite (length_toBinaryString_default bits Hbf). reflexivity.
Qed.

Lemma toFormattedBinaryString_length_witness :
  0 <= 5 /\ BitField 5 /\
  String.length (toFormattedBinaryString 5 None) = 45%nat.
Proof.
  assert (H : 0 <= 5) by lia.
  assert (Hbf : BitField 5) by (unfold BitField, W; lia).
  split; [exact H |]. split; [exact Hbf |].
  exact (proj2 (toFormattedBinaryString_length 5 None H) Hbf).
Defined.

(** ** Further properties of the named collections *)

#[local] Set Warnings "-clear-no-such-hyp".

Section NamedMore.

Implicit Types (result : gmap string Value) (name key : string).

Lemma dom_set_number result key (n : Z) :
  result !! "__proto__"%string = None ->
  dom (Object.set_number result key n)
  = dom result ∪ (if bool_decide (key = "__proto__"%string) then ∅ else {[ key ]}).
Proof.
  intros Hproto. unfold Object.set_number.
  destruct (result !! key) eqn:Hkey.
  - assert (Hne : key <> "__proto__"%string) by congruence.
    rewrite bool_decide_eq_false_2 by exact Hne.
    rewrite dom_insert_L. set_solver.
  - case_bool_decide; [set_solver |]. rewrite dom_insert_L. set_solver.
Qed.

Lemma set_number_proto result key (n : Z) :
  result !! "__proto__"%string = None ->
  Object.set_number result key n !! "__proto__"%string = None.
Proof.
  intros H. exact (forEach_assign_proto [key] n result H).
Qed.

Lemma dom_forEach_assign (names : list string) (index : Z) result :
  result !! "__proto__"%string = None ->
  dom (forEach_assign names index result)
  = dom result ∪ list_to_set (filter (fun name => name <> "__proto__"%string) names).
Proof.
  revert index result. induction names as [| n0 rest IH]; intros index result H.
  - cbn [forEach_assign]. rewrite filter_nil. set_solver.
  - cbn [forEach_assign]. rewrite IH by (apply set_number_proto; exact H).
    rewrite dom_set_number by exact H. rewrite filter_cons.
    case_bool_decide as Hd; case_decide as Hf; try congruence.
    + set_solver.
    + rewrite list_to_set_cons. set_solver.
Qed.

Lemma NoDup_last_occurrence (names : list string) (k : nat) name :
  NoDup names -> names !! k = Some name -> name ∉ drop (S k) names.
Proof.
  intros Hnd Hk. rewrite <- (take_drop_middle names k name Hk) in Hnd.
  apply NoDup_app in Hnd as (_ & _ & Hnd).
  apply NoDup_cons in Hnd as [Hnot _]. exact Hnot.
Qed.

Lemma defineBitEnum_get (names : list string) (k : nat) name :
  names !! k = Some name ->
  name ∉ drop (S k) names ->
  name <> "mask"%string -> name <> "__proto__"%string ->
  Object.get (defineBitEnum names) name = VNumber (Z.of_nat k).
Proof.
  intros Hk Hlast Hmask Hproto. apply get_own. unfold defineBitEnum.
  rewrite lookup_insert_ne by congruence.
  rewrite (forEach_assign_last names 0 ∅ k name Hproto Hk Hlast).
  reflexivity.
Qed.

Lemma defineBitEnum_mask_at (names : list string) (k : nat) name :
  NoDup names -> "mask"%string ∉ names -> "__proto__"%string ∉ names ->
  names !! k = Some name ->
  mask (defineBitEnum names) name = Some (2 ^ (Z.of_nat k mod 32)).
Proof.
  intros Hnd Hm Hp Hk.
  assert (Hin : name ∈ names) by (apply list_elem_of_lookup; eauto).
  rewrite mask_call by apply defineBitEnum_mask_member.
  rewrite (defineBitEnum_get names k name Hk).
  - rewrite bitMask_mod32. reflexivity.
  - apply NoDup_last_occurrence; assumption.
  - intros ->. contradiction.
  - intros ->. contradiction.
Qed.

End NamedMore.

(** X26: the members of a collection built by [defineBitFlags] are the
    names of the definition and [mask], nothing else; a definition
    without the name [mask] gets exactly one more member. *)
Theorem defineBitFlags_keys (definition : gmap string Z) :
  Object.keys (defineBitFlags definition) = dom definition ∪ {[ "mask"%string ]} /\
  (definition !! "mask"%string = None ->
   size (defineBitFlags definition) = S (size definition)).
Proof.
  unfold Object.keys, defineBitFlags. split.
  - rewrite dom_insert_L, dom_fmap_L. set_solver.
  - intros Hnone. rewrite map_size_insert_None.
    + rewrite map_size_fmap. reflexivity.
    + rewrite lookup_fmap, Hnone. reflexivity.
Qed.

Lemma defineBitFlags_keys_witness :
  ({[ "READ"%string := 0 ]} : gmap string Z) !! "mask"%string = None /\
  size (defineBitFlags {[ "READ"%string := 0 ]}) = 2%nat.
Proof.
  assert (H : ({[ "READ"%string := 0 ]} : gmap string Z) !! "mask"%string = None)
    by (vm_compute; reflexivity).
  split; [exact H | exact (proj2 (defineBitFlags_keys _) H)].
Defined.

(** X27: the members of a collection built by [defineBitEnum] are the
    given names, without [__proto__], and [mask]; a repeated name is one
    member. *)
Theorem defineBitEnum_keys (names : list string) :
  Object.keys (defineBitEnum names)
  = list_to_set (filter (fun name => name <> "__proto__"%string) names)
    ∪ {[ "mask"%string ]}.
Proof.
  unfold Object.keys, defineBitEnum.
  rewrite dom_insert_L, dom_forEach_assign by apply lookup_empty.
  rewrite dom_empty_L. set_solver.
Qed.

(** X28: for distinct names other than [mask] and [__proto__], the mask
    of the name at index [k] is the bit [k mod 32]: up to 32 names get
    pairwise different masks, and from the 33rd on a name shares its
    mask with the name 32 places before it. *)
Theorem defineBitEnum_masks (names : list string) :
  NoDup names -> "mask"%string ∉ names -> "__proto__"%string ∉ names ->
  (forall (k : nat) (name : string),
     names !! k = Some name ->
     mask (defineBitEnum names) name = Some (2 ^ (Z.of_nat k mod 32))) /\
  ((length names <= 32)%nat ->
   forall n1 n2 : string,
     n1 ∈ names -> n2 ∈ names ->
     mask (defineBitEnum names) n1 = mask (defineBitEnum names) n2 -> n1 = n2) /\
  (forall (k : nat) (n1 n2 : string),
     names !! k = Some n1 -> names !! (k + 32)%nat = Some n2 ->
     mask (defineBitEnum names) n1 = mask (defineBitEnum names) n2).
Proof.
  intros Hnd Hm Hp. split; [| split].
  - intros k name Hk. apply defineBitEnum_mask_at; assumption.
  - intros Hlen n1 n2 H1 H2 Heq.
    apply list_elem_of_lookup in H1 as [k1 Hk1].
    apply list_elem_of_lookup in H2 as [k2 Hk2].
    pose proof (lookup_lt_Some _ _ _ Hk1) as Hlt1.
    pose proof (lookup_lt_Some _ _ _ Hk2) as Hlt2.
    rewrite (defineBitEnum_mask_at names k1 n1), (defineBitEnum_mask_at names k2 n2)
      in Heq by assumption.
    injection Heq as Heq.
    rewrite !Z.mod_small in Heq by lia.
    apply Z.pow_inj_r in Heq; [| lia | lia | lia].
    assert (k1 = k2) by lia. subst k2. congruence.
  - intros k n1 n2 Hk1 Hk2.
    rewrite (defineBitEnum_mask_at names k n1), (defineBitEnum_mask_at names (k + 32) n2)
      by assumption.
    do 2 f_equal. rewrite Nat2Z.inj_add.
    replace (Z.of_nat k + Z.of_nat 32) with (Z.of_nat k + 1 * 32) by lia.
    symmetry. apply Z.mod_add. lia.
Qed.

Lemma defineBitEnum_masks_witness :
  mask (defineBitEnum ["GUEST"; "MEMBER"; "ADMIN"]%string) "ADMIN" = Some 4.
Proof.
  assert (Hnd : NoDup ["GUEST"; "MEMBER"; "ADMIN"]%string)
    by (apply (bool_decide_unpack _); vm_compute; exact I).
  assert (Hm : "mask"%string ∉ ["GUEST"; "MEMBER"; "ADMIN"]%string)
    by (apply (bool_decide_unpack _); vm_compute; exact I).
  assert (Hp : "__proto__"%string ∉ ["GUEST"; "MEMBER"; "ADMIN"]%string)
    by (apply (bool_decide_unpack _); vm_compute; exact I).
  assert (Hk : ["GUEST"; "MEMBER"; "ADMIN"]%string !! 2%nat = Some "ADMIN"%string)
    by reflexivity.
  exact (proj1 (defineBitEnum_masks _ Hnd Hm Hp) 2%nat "ADMIN"%string Hk).
Defined.

(** X29: the mask of a name of [defineBitFlags] is the bit of its
    position taken modulo 32: a position at or above the width, or a
    negative one, wraps, and names given the same position share their
    mask. *)
Theorem defineBitFlags_masks (definition : gmap string Z) :
  (forall (name : string) (position : Z),
     definition !! name = Some position -> name <> "mask"%string ->
     mask (defineBitFlags definition) name = Some (2 ^ (position mod 32))) /\
  (forall (n1 n2 : string) (p1 p2 : Z),
     definition !! n1 = Some p1 -> definition !! n2 = Some p2 ->
     n1 <> "mask"%string -> n2 <> "mask"%string ->
     p1 mod 32 = p2 mod 32 ->
     mask (defineBitFlags definition) n1 = mask (defineBitFlags definition) n2).
Proof.
  assert (Hone : forall (name : string) (position : Z),
            definition !! name = Some position -> name <> "mask"%string ->
            mask (defineBitFlags definition) name = Some (2 ^ (position mod 32))).
  { intros name position Hin Hname.
    rewrite mask_call by apply defineBitFlags_mask_member.
    assert (Hget : Object.get (defineBitFlags definition) name = VNumber position).
    { apply get_own. unfold defineBitFlags.
      rewrite lookup_insert_ne by congruence.
      rewrite lookup_fmap, Hin. reflexivity. }
    rewrite Hget, bitMask_mod32. reflexivity. }
  split; [exact Hone |].
  intros n1 n2 p1 p2 H1 H2 Hn1 Hn2 Hp.
  rewrite (Hone n1 p1 H1 Hn1), (Hone n2 p2 H2 Hn2), Hp. reflexivity.
Qed.

Lemma defineBitFlags_masks_witness :
  mask (defineBitFlags {[ "LOW"%string := 1; "HIGH"%string := 33 ]}) "HIGH" = Some 2.
Proof.
  assert (Hin : ({[ "LOW"%string := 1; "HIGH"%string := 33 ]} : gmap string Z)
                !! "HIGH"%string = Some 33) by (vm_compute; reflexivity).
  assert (Hname : "HIGH"%string <> "mask"%string) by discriminate.
  exact (proj1 (defineBitFlags_masks _) "HIGH"%string 33 Hin Hname).
Defined.

(** X30: the names a collection cannot hold have the mask of position
    0: whatever was supplied for [mask], and for [__proto__] in
    [defineBitEnum], [mask(name)] is 1. *)
Theorem reserved_names_mask :
  (forall definition : gmap string Z,
     mask (defineBitFlags definition) "mask" = Some 1) /\
  (forall names : list string,
     mask (defineBitEnum names) "mask" = Some 1 /\
     mask (defineBitEnum names) "__proto__" = Some 1).
Proof.
  split; [| intros names; split].
  - intros definition.
    rewrite mask_call by apply defineBitFlags_mask_member.
    rewrite (get_own _ _ _ (defineBitFlags_mask_member definition)).
    reflexivity.
  - rewrite mask_call by apply defineBitEnum_mask_member.
    rewrite (get_own _ _ _ (defineBitEnum_mask_member names)).
    reflexivity.
  - rewrite mask_call by apply defineBitEnum_mask_member.
    rewrite get_absent; [rewrite bitMask_prototype; reflexivity |].
    unfold defineBitEnum. rewrite lookup_insert_ne by discriminate.
    apply forEach_assign_proto, lookup_empty.
Qed.
